(** * Crash and termination handling of the functions framework

    A shallow embedding of [src/error.ts]: the class
    [FunctionsFrameworkErrorHandler] with its static registration list
    [customeErrorHandlers], its two static methods [register] and [on], the
    local closure [callCustomErrorHandler] and the module constant
    [killInstance].

    What the module does is call its collaborators ([console], the custom
    handlers, [sendCrashResponse], [server.close], [process.exit]).  Those
    calls are recorded, in order, as a list of [Event]s.  The collaborators
    themselves are outside the file and stay opaque:
    - a custom handler is a function object, known by its identity; what the
      awaitable it returns does (fulfil, reject, stay pending) is given by an
      oracle [outcome], a variable of the development.  A handler that throws
      is a handler whose awaitable rejects, as the [async] callback around
      the call turns the exception into a rejection;
    - [sendCrashResponse] is recorded with the options object it receives;
      its [res] is [Response.latest] of the invoker, which the listeners
      read after their [await]: the state says what the invoker stores in
      it before the event and while the listeners are suspended;
    - a server either completes [close] (and then runs the callback it was
      given) or does not.

    Every listener is an [async] function with one [await].  It is modelled
    by the events before the suspension ([sync]) and the events once the
    awaited promise has settled ([resumed]).  Settlements are listed in
    registration order, one of the schedules the runtime allows.  A chain
    says what its listener does when the runtime lets it run on: whether
    Node.js still resumes a listener of "exit" after its [await], what it
    does with the rejected promise of a listener ([ListenerRejected]), and
    how it interleaves the chains of several listeners of one event, are
    not part of the model. *)

From Stdlib Require Import String List ZArith Lia Bool DecimalString DecimalZ.
Import ListNotations.
Open Scope string_scope.
Open Scope list_scope.

(** ** Values and collaborators *)

(** The JavaScript values that reach the listeners as event arguments. *)
Inductive JsValue : Type :=
| JsUndefined
| JsNumber (n : Z)
| JsString (s : string)
| JsError (message : string).

(** String conversion of a template literal [`${v}`]. *)
Definition toString (v : JsValue) : string :=
  match v with
  | JsUndefined => "undefined"
  | JsNumber n => NilZero.string_of_int (Z.to_int n)
  | JsString s => s
  | JsError message => ("Error: " ++ message)%string
  end.

(** [v === 0] *)
Definition strictEqualsZero (v : JsValue) : bool :=
  match v with
  | JsNumber n => Z.eqb n 0
  | _ => false
  end.

(** A custom handler is a function object; only its identity is known. *)
Definition Handler : Type := nat.

(** What becomes of the awaitable a handler call returns. *)
Inductive Outcome : Type := Fulfils | Rejects | Pends.

(** [http.Server]: [close] either completes or never does. *)
Record Server : Type := { serverId : nat; closeCompletes : bool }.

(** [Response.latest] of the invoker; [None] when no response was stored. *)
Definition ResponseHandle : Type := option nat.

(** The end of the process: the exit code handed to [process.exit], [None]
    when the call passes no code and the runtime picks its default. *)
Inductive ProcessEnd : Type := ExitWith (code : option Z).

(** [process.exit(code?)] reads its first argument only. *)
Definition process_exit (args : list Z) : ProcessEnd := ExitWith (hd_error args).

(** [f.bind(thisArg, a1, ...)]: the bound arguments come first. *)
Definition bind {A B : Type} (f : list A -> B) (bound : list A) : list A -> B :=
  fun args => f (bound ++ args).

(** [const killInstance = process.exit.bind(process, 16);] *)
Definition killInstance : list Z -> ProcessEnd := bind process_exit [16%Z].

(** The exit code of the runtime when none is given. *)
Definition defaultExitCode : Z := 0%Z.

(** The exit codes Node.js documents for its own failures, on the page the
    comment above [killInstance] cites
    (nodejs.org/api/process.html, "Exit codes"); the codes above 128 stand
    for signals. *)
Definition nodeExitCodes : list Z :=
  [1; 2; 3; 4; 5; 6; 7; 8; 9; 10; 12; 13; 14]%Z.

Definition usedByNode (code : Z) : bool :=
  existsb (Z.eqb code) nodeExitCodes || Z.ltb 128 code.

(** The options object of [sendCrashResponse]; an absent property is [None]. *)
Record CrashOptions : Type := {
  err : JsValue;
  res : ResponseHandle;
  callback : option (list Z -> ProcessEnd);
  silent : option bool
}.

(** ** Events

    The calls the module makes, the settlement of an awaited promise
    ([Settled]), the run of the callback given to [server.close]
    ([CloseCallback]) and the rejection of a listener's own promise
    ([ListenerRejected]). *)

Inductive Event : Type :=
| ConsoleError (msg : string)
| ConsoleLog (msg : string)
| Call (f : Handler) (arg : string)
| Settled (f : Handler) (arg : string) (o : Outcome)
| SendCrashResponse (opts : CrashOptions)
| ServerClose (server : Server)
| CloseCallback (server : Server)
| ProcessExit (e : ProcessEnd)
| ListenerRejected.

Definition isLog (e : Event) : bool :=
  match e with ConsoleError _ | ConsoleLog _ => true | _ => false end.

Definition isCall (e : Event) : bool :=
  match e with Call _ _ => true | _ => false end.

Definition isCallOf (h : Handler) (e : Event) : bool :=
  match e with Call f _ => Nat.eqb f h | _ => false end.

Definition isSettled (e : Event) : bool :=
  match e with Settled _ _ _ => true | _ => false end.

Definition isSend (e : Event) : bool :=
  match e with SendCrashResponse _ => true | _ => false end.

(** The finalize actions: crash response, server close and its completion,
    termination. *)
Definition isFinalize (e : Event) : bool :=
  match e with
  | SendCrashResponse _ | ServerClose _ | CloseCallback _ | ProcessExit _ => true
  | _ => false
  end.

(** ** Promises of the fan-out *)

(** The promise of one [async] callback of the [map]: it finished without
    awaiting, or it is suspended on [await errorHandlerFunction(signal)]. *)
Inductive Promise : Type :=
| Resolved
| Awaiting (f : Handler) (signal : string).

(** One reaction chain: one run of one listener. *)
Record Chain : Type := { sync : list Event; resumed : list Event }.

Definition run (c : Chain) : list Event := sync c ++ resumed c.

(** A listener attached with [process.on]: a closure that takes the static
    list as it is when the listener is called, [Response.latest] as it is
    when the listener has resumed from its [await], and the event
    argument. *)
Definition Listener : Type :=
  list (string * Handler) -> ResponseHandle -> JsValue -> Chain.

(** The state the module works on: the static list, the listeners attached
    to [process], and [Response.latest] of the invoker.  The listeners read
    [Response.latest] after their [await], so the record also says what the
    invoker stores in it while the listeners of an event are suspended, if
    it stores anything ([storedWhileAwaiting]). *)
Record Process : Type := {
  customeErrorHandlers : list (string * Handler);
  processListeners : list (string * Listener);
  Response_latest : ResponseHandle;
  storedWhileAwaiting : option ResponseHandle
}.

(** Module load: [customeErrorHandlers = []], nothing attached. *)
Definition loaded (latest : ResponseHandle) : Process :=
  {| customeErrorHandlers := []; processListeners := [];
     Response_latest := latest; storedWhileAwaiting := None |}.

(** [server.close(cb)]: the call, then, when closing completes, the
    callback. *)
Definition server_close (server : Server) (cb : list Z -> ProcessEnd) : list Event :=
  ServerClose server ::
  (if closeCompletes server
   then [CloseCallback server; ProcessExit (cb [])]
   else []).

Section Reactions.

(** What the awaitable returned by [f(signal)] does. *)
Variable outcome : Handler -> string -> Outcome.

(** The callback of the [map] in [callCustomErrorHandler]. *)
Definition errorPromise (signal : string) (entry : string * Handler)
  : list Event * Promise :=
  let '(errorHandlerSignal, errorHandlerFunction) := entry in
  if String.eqb signal errorHandlerSignal
  then ([Call errorHandlerFunction signal], Awaiting errorHandlerFunction signal)
  else ([], Resolved).

(** [Promise.all]: the settlements it waits for and its own state.  It
    rejects with the first rejection, fulfils when all have fulfilled. *)
Fixpoint Promise_all (ps : list Promise) : list Event * Outcome :=
  match ps with
  | [] => ([], Fulfils)
  | Resolved :: rest => Promise_all rest
  | Awaiting f s :: rest =>
      match outcome f s with
      | Rejects => ([Settled f s Rejects], Rejects)
      | Fulfils =>
          let (es, o) := Promise_all rest in (Settled f s Fulfils :: es, o)
      | Pends =>
          let (es, o) := Promise_all rest in
          (es, match o with Rejects => Rejects | _ => Pends end)
      end
  end.

(** [callCustomErrorHandler(signal)]: the handler calls made while mapping
    over the list, and the promises handed to [Promise.all]. *)
Definition callCustomErrorHandler (handlers : list (string * Handler))
           (signal : string) : list Event * list Promise :=
  let errorPromises := map (errorPromise signal) handlers in
  (concat (map fst errorPromises), map snd errorPromises).

(** [pre; await callCustomErrorHandler(signal); finalize] in an [async]
    listener.  When the awaited promise rejects the listener's own promise
    rejects and [finalize] is not reached. *)
Definition awaitCustom (pre : list Event) (handlers : list (string * Handler))
           (signal : string) (finalize : list Event) : Chain :=
  let (calls, errorPromises) := callCustomErrorHandler handlers signal in
  let (settlements, state) := Promise_all errorPromises in
  {| sync := pre ++ calls;
     resumed := settlements ++
                match state with
                | Fulfils => finalize
                | Rejects => [ListenerRejected]
                | Pends => []
                end |}.

Definition uncaughtExceptionListener : Listener :=
  fun handlers latest e =>
    awaitCustom [ConsoleError "Uncaught exception"] handlers "uncaughtException"
      [SendCrashResponse
         {| err := e; res := latest; callback := Some killInstance; silent := None |}].

Definition unhandledRejectionListener : Listener :=
  fun handlers latest e =>
    awaitCustom [ConsoleError "Unhandled rejection"] handlers "unhandledRejection"
      [SendCrashResponse
         {| err := e; res := latest; callback := Some killInstance; silent := None |}].

Definition exitListener : Listener :=
  fun handlers latest code =>
    awaitCustom [] handlers "exit"
      [SendCrashResponse
         {| err := JsError ("Process exited with code " ++ toString code)%string;
            res := latest;
            callback := None;
            silent := Some (strictEqualsZero code) |}].

Definition signalListener (signal : string) (server : Server) : Listener :=
  fun handlers _ _ =>
    awaitCustom [ConsoleLog ("Received " ++ signal)%string] handlers signal
      (server_close server (fun _ => process_exit [])).

(** [static register(server)] *)
Definition register (server : Server) (p : Process) : Process :=
  {| customeErrorHandlers := customeErrorHandlers p;
     processListeners :=
       processListeners p ++
       [("uncaughtException", uncaughtExceptionListener);
        ("unhandledRejection", unhandledRejectionListener);
        ("exit", exitListener)] ++
       map (fun signal => (signal, signalListener signal server))
           ["SIGINT"; "SIGTERM"];
     Response_latest := Response_latest p;
     storedWhileAwaiting := storedWhileAwaiting p |}.

(** [static on(error, listener)] *)
Definition on (error : string) (listener : Handler) (p : Process) : Process :=
  {| customeErrorHandlers := customeErrorHandlers p ++ [(error, listener)];
     processListeners := processListeners p;
     Response_latest := Response_latest p;
     storedWhileAwaiting := storedWhileAwaiting p |}.

(** The invoker stores a new [Response.latest]. *)
Definition setLatest (latest : ResponseHandle) (p : Process) : Process :=
  {| customeErrorHandlers := customeErrorHandlers p;
     processListeners := processListeners p;
     Response_latest := latest;
     storedWhileAwaiting := storedWhileAwaiting p |}.

(** The invoker stores a new [Response.latest] while the listeners of the
    event to come are suspended at their [await]. *)
Definition storeWhileAwaiting (latest : ResponseHandle) (p : Process) : Process :=
  {| customeErrorHandlers := customeErrorHandlers p;
     processListeners := processListeners p;
     Response_latest := Response_latest p;
     storedWhileAwaiting := Some latest |}.

(** [Response.latest] as a listener reads it once it has resumed. *)
Definition latestOnResume (p : Process) : ResponseHandle :=
  match storedWhileAwaiting p with
  | Some latest => latest
  | None => Response_latest p
  end.

(** [process.emit(name, arg)]: every listener attached under [name] runs,
    in the order of attachment; one chain per listener.  A listener reads
    the static list when it is called and [Response.latest] when it has
    resumed. *)
Definition emit (name : string) (arg : JsValue) (p : Process) : list Chain :=
  map (fun l => snd l (customeErrorHandlers p) (latestOnResume p) arg)
      (filter (fun l => String.eqb name (fst l)) (processListeners p)).

(** The names under which [register] attaches a listener. *)
Definition conditionNames : list string :=
  ["uncaughtException"; "unhandledRejection"; "exit"; "SIGINT"; "SIGTERM"].

(** The states the two methods can produce from module load. *)
Inductive reachable : Process -> Prop :=
| reach_loaded latest : reachable (loaded latest)
| reach_register server p : reachable p -> reachable (register server p)
| reach_on error listener p : reachable p -> reachable (on error listener p)
| reach_latest latest p : reachable p -> reachable (setLatest latest p)
| reach_store latest p : reachable p -> reachable (storeWhileAwaiting latest p).

(** The entries of the list registered under [signal], in order. *)
Definition matching (signal : string) (handlers : list (string * Handler))
  : list (string * Handler) :=
  filter (fun entry => String.eqb signal (fst entry)) handlers.

(** Every awaitable of a handler registered under [signal] fulfils. *)
Definition allFulfil (signal : string) (handlers : list (string * Handler)) : Prop :=
  forall h, In (signal, h) handlers -> outcome h signal = Fulfils.

(** The fan-out of [callCustomErrorHandler] followed by [Promise.all]. *)
Definition fanOut (hs : list (string * Handler)) (signal : string)
  : list Event * Outcome :=
  Promise_all (snd (callCustomErrorHandler hs signal)).

End Reactions.

(** The calls and the settlements a fan-out over [handlers] is expected to
    produce when every awaitable fulfils. *)
Definition callsOf (signal : string) (handlers : list (string * Handler))
  : list Event :=
  map (fun entry => Call (snd entry) signal) (matching signal handlers).

Definition settledOf (signal : string) (handlers : list (string * Handler))
  : list Event :=
  map (fun entry => Settled (snd entry) signal Fulfils) (matching signal handlers).

(** What [register] attaches: the listener and the name it is attached
    under. *)
Definition attachedBy (outcome : Handler -> string -> Outcome)
           (entry : string * Listener) : Prop :=
  entry = ("uncaughtException", uncaughtExceptionListener outcome) \/
  entry = ("unhandledRejection", unhandledRejectionListener outcome) \/
  entry = ("exit", exitListener outcome) \/
  exists server signal,
    (signal = "SIGINT" \/ signal = "SIGTERM") /\
    entry = (signal, signalListener outcome signal server).

(** Every listener of the process was attached by [register]. *)
Definition wellAttached (outcome : Handler -> string -> Outcome) (p : Process) : Prop :=
  Forall (attachedBy outcome) (processListeners p).

(** The listeners are those of a single call of [register]. *)
Definition registeredOnce (outcome : Handler -> string -> Outcome)
           (server : Server) (p : Process) : Prop :=
  processListeners p = processListeners (register outcome server (loaded None)).

(** [n] registrations in a row. *)
Definition registerTimes (outcome : Handler -> string -> Outcome)
           (n : nat) (server : Server) (p : Process) : Process :=
  Nat.iter n (register outcome server) p.

(** The registrations of [h] under [signal], duplicates included. *)
Definition registrationsOf (signal : string) (h : Handler)
           (handlers : list (string * Handler)) : nat :=
  length (filter (fun entry => String.eqb signal (fst entry) && Nat.eqb (snd entry) h)
                 handlers).

(** The listeners are those of [n] calls of [register] in a row. *)
Definition registeredTimes (outcome : Handler -> string -> Outcome)
           (n : nat) (server : Server) (p : Process) : Prop :=
  processListeners p = processListeners (registerTimes outcome n server (loaded None)).

(** The same list and [Response.latest], with the listeners of one call of
    [register]. *)
Definition registeredOnceLike (outcome : Handler -> string -> Outcome)
           (server : Server) (p : Process) : Process :=
  {| customeErrorHandlers := customeErrorHandlers p;
     processListeners := processListeners (register outcome server (loaded None));
     Response_latest := Response_latest p;
     storedWhileAwaiting := storedWhileAwaiting p |}.

(** ** Sample values

    A handler environment, two servers and a process built with the two
    methods, on which the statements below are instantiated. *)

Definition settling : Handler -> string -> Outcome :=
  fun h _ => match h with 0 => Rejects | 1 => Pends | _ => Fulfils end.

Definition fulfilling : Handler -> string -> Outcome := fun _ _ => Fulfils.

Definition server0 : Server := {| serverId := 0; closeCompletes := true |}.

Definition sample (outcome : Handler -> string -> Outcome) : Process :=
  on "SIGINT" 4
     (on "exit" 3
         (on "uncaughtException" 2
             (setLatest (Some 7)
                (register outcome server0
                   (on "uncaughtException" 3 (loaded None)))))).

Definition sampleProcess : Process := sample settling.

(** Handler 3 registered twice under "uncaughtException". *)
Definition sampleTwice : Process := on "uncaughtException" 3 sampleProcess.

(** Three calls of [register], then handler 2 registered twice. *)
Definition sampleThrice : Process :=
  on "SIGTERM" 2 (on "SIGTERM" 2 (registerTimes settling 3 server0 (loaded None))).

(** A handler registered under the name "processExit". *)
Definition sampleProcessExit : Process :=
  on "processExit" 5 (register fulfilling server0 (loaded None)).

Definition sampleExitChain : Chain :=
  exitListener settling (customeErrorHandlers sampleProcess)
               (latestOnResume sampleProcess) (JsNumber 0).

Definition sampleTwiceChain : Chain :=
  uncaughtExceptionListener settling (customeErrorHandlers sampleTwice)
                            (latestOnResume sampleTwice) (JsError "boom").

Definition sampleSignalChain : Chain :=
  signalListener settling "SIGINT" server0 (customeErrorHandlers sampleProcess)
                 (latestOnResume sampleProcess) JsUndefined.

Definition sampleRejectionChain : Chain :=
  unhandledRejectionListener settling (customeErrorHandlers sampleProcess)
                             (latestOnResume sampleProcess) (JsString "late").

(** ** Histories of calls

    The calls made on the module since it was loaded, in order: the two
    static methods, and the invoker storing a new [Response.latest], before
    the event or while its listeners are suspended. *)

Inductive Operation : Type :=
| DoRegister (server : Server)
| DoOn (error : string) (listener : Handler)
| DoSetLatest (latest : ResponseHandle)
| DoStoreWhileAwaiting (latest : ResponseHandle).

Definition step (outcome : Handler -> string -> Outcome)
           (p : Process) (op : Operation) : Process :=
  match op with
  | DoRegister server => register outcome server p
  | DoOn error listener => on error listener p
  | DoSetLatest latest => setLatest latest p
  | DoStoreWhileAwaiting latest => storeWhileAwaiting latest p
  end.

Definition perform (outcome : Handler -> string -> Outcome)
           (ops : list Operation) (p : Process) : Process :=
  fold_left (step outcome) ops p.

(** The servers [register] was called with, in call order. *)
Fixpoint serversOf (ops : list Operation) : list Server :=
  match ops with
  | [] => []
  | DoRegister server :: rest => server :: serversOf rest
  | _ :: rest => serversOf rest
  end.

(** The registrations made with [on], in call order. *)
Fixpoint handlersOf (ops : list Operation) : list (string * Handler) :=
  match ops with
  | [] => []
  | DoOn error listener :: rest => (error, listener) :: handlersOf rest
  | _ :: rest => handlersOf rest
  end.

(** The listeners one call of [register] attaches. *)
Definition listenersOf (outcome : Handler -> string -> Outcome) (server : Server)
  : list (string * Listener) :=
  processListeners (register outcome server (loaded None)).

(** The servers a trace calls [close] on, in order. *)
Fixpoint closedServers (l : list Event) : list Server :=
  match l with
  | [] => []
  | ServerClose server :: rest => server :: closedServers rest
  | _ :: rest => closedServers rest
  end.

(** Closing the server, its completion, the end of the process. *)
Definition isShutdown (e : Event) : bool :=
  match e with
  | ServerClose _ | CloseCallback _ | ProcessExit _ => true
  | _ => false
  end.

Definition isExit (e : Event) : bool :=
  match e with ProcessExit _ => true | _ => false end.

(** One call of [register], then a handler whose awaitable rejects (0) or
    never settles (1) registered under one name. *)
Definition sampleCrashRejecting : Process :=
  on "uncaughtException" 0 (register settling server0 (loaded (Some 7))).

Definition sampleExitPending : Process :=
  on "exit" 1 (register settling server0 (loaded (Some 7))).

Definition sampleSignalRejecting : Process :=
  on "SIGTERM" 0 (register settling server0 (loaded (Some 7))).

(** The sample process when the invoker stores a response while the
    listeners wait. *)
Definition sampleStored : Process := storeWhileAwaiting (Some 9) sampleProcess.

Definition sampleStoredChain : Chain :=
  exitListener settling (customeErrorHandlers sampleStored)
               (latestOnResume sampleStored) (JsNumber 0).

(** A server whose [close] never completes, and a history with two calls
    of [register]. *)
Definition server1 : Server := {| serverId := 1; closeCompletes := false |}.

Definition sampleHistory : list Operation :=
  [DoOn "SIGINT" 4; DoRegister server0; DoSetLatest (Some 7); DoOn "exit" 3;
   DoRegister server1; DoOn "SIGINT" 2].

(** The sample process with handler 0, whose awaitable rejects, and with
    handler 1, whose awaitable stays pending, under "SIGINT". *)
Definition sampleRejecting : Process := on "SIGINT" 0 (on "SIGINT" 1 sampleProcess).

Definition samplePending : Process := on "SIGINT" 1 sampleProcess.

Definition sampleRejectingChain : Chain :=
  signalListener settling "SIGINT" server0 (customeErrorHandlers sampleRejecting)
                 (latestOnResume sampleRejecting) JsUndefined.

Definition samplePendingChain : Chain :=
  signalListener settling "SIGINT" server0 (customeErrorHandlers samplePending)
                 (latestOnResume samplePending) JsUndefined.

(** ** Runs of the model *)

Example run_uncaughtException :
  map run (emit "uncaughtException" (JsError "boom") sampleProcess) =
  [[ConsoleError "Uncaught exception";
    Call 3 "uncaughtException"; Call 2 "uncaughtException";
    Settled 3 "uncaughtException" Fulfils; Settled 2 "uncaughtException" Fulfils;
    SendCrashResponse
      {| err := JsError "boom"; res := Some 7;
         callback := Some killInstance; silent := None |}]].
Proof. reflexivity. Qed.

Example run_exit_clean :
  map run (emit "exit" (JsNumber 0) sampleProcess) =
  [[Call 3 "exit"; Settled 3 "exit" Fulfils;
    SendCrashResponse
      {| err := JsError "Process exited with code 0"; res := Some 7;
         callback := None; silent := Some true |}]].
Proof. reflexivity. Qed.

Example run_exit_code :
  map run (emit "exit" (JsNumber 16) sampleProcess) =
  [[Call 3 "exit"; Settled 3 "exit" Fulfils;
    SendCrashResponse
      {| err := JsError "Process exited with code 16"; res := Some 7;
         callback := None; silent := Some false |}]].
Proof. reflexivity. Qed.

Example run_signal :
  map run (emit "SIGTERM" JsUndefined sampleProcess) =
  [[ConsoleLog "Received SIGTERM";
    ServerClose server0; CloseCallback server0; ProcessExit (ExitWith None)]].
Proof. reflexivity. Qed.

(** Handler 0 rejects: the listener's promise rejects, the server is not
    closed. *)
Example run_signal_rejecting :
  map run (emit "SIGINT" JsUndefined (on "SIGINT" 0 sampleProcess)) =
  [[ConsoleLog "Received SIGINT"; Call 4 "SIGINT"; Call 0 "SIGINT";
    Settled 4 "SIGINT" Fulfils; Settled 0 "SIGINT" Rejects; ListenerRejected]].
Proof. reflexivity. Qed.

(** Handler 1 never settles: the listener stays suspended. *)
Example run_signal_pending :
  map run (emit "SIGINT" JsUndefined (on "SIGINT" 1 sampleProcess)) =
  [[ConsoleLog "Received SIGINT"; Call 4 "SIGINT"; Call 1 "SIGINT";
    Settled 4 "SIGINT" Fulfils]].
Proof. reflexivity. Qed.

(** No listener is attached under another name. *)
Example run_other_event :
  emit "beforeExit" (JsNumber 0) sampleProcess = [].
Proof. reflexivity. Qed.

Example killInstance_ignores_arguments :
  killInstance [] = ExitWith (Some 16%Z) /\ killInstance [0%Z] = ExitWith (Some 16%Z).
Proof. split; reflexivity. Qed.

(** ** Properties of the fan-out *)

Lemma matching_app signal hs1 hs2 :
  matching signal (hs1 ++ hs2) = matching signal hs1 ++ matching signal hs2.
Proof. apply filter_app. Qed.

Lemma matching_In signal hs s h :
  In (s, h) (matching signal hs) <-> In (s, h) hs /\ s = signal.
Proof.
  unfold matching. rewrite filter_In. simpl.
  rewrite String.eqb_eq. intuition congruence.
Qed.

Section FanOut.

Variable outcome : Handler -> string -> Outcome.

Lemma callCustomErrorHandler_calls hs signal :
  fst (callCustomErrorHandler hs signal) = callsOf signal hs.
Proof.
  unfold callCustomErrorHandler, callsOf, matching. simpl.
  induction hs as [| [s f] hs IH]; simpl; [reflexivity |].
  destruct (String.eqb signal s); simpl; rewrite IH; reflexivity.
Qed.

Lemma fanOut_nil signal : fanOut outcome [] signal = ([], Fulfils).
Proof. reflexivity. Qed.

Lemma fanOut_cons s f hs signal :
  fanOut outcome ((s, f) :: hs) signal =
  if String.eqb signal s
  then match outcome f signal with
       | Rejects => ([Settled f signal Rejects], Rejects)
       | Fulfils => (Settled f signal Fulfils :: fst (fanOut outcome hs signal),
                     snd (fanOut outcome hs signal))
       | Pends => (fst (fanOut outcome hs signal),
                   match snd (fanOut outcome hs signal) with
                   | Rejects => Rejects
                   | _ => Pends
                   end)
       end
  else fanOut outcome hs signal.
Proof.
  unfold fanOut, callCustomErrorHandler. simpl.
  destruct (String.eqb signal s); simpl; [| reflexivity].
  destruct (outcome f signal); try reflexivity;
    destruct (Promise_all outcome _); reflexivity.
Qed.

Lemma fanOut_settled hs signal :
  Forall (fun e => isSettled e = true) (fst (fanOut outcome hs signal)).
Proof.
  induction hs as [| [s f] hs IH]; [constructor |].
  rewrite fanOut_cons.
  destruct (String.eqb signal s); [| exact IH].
  destruct (outcome f signal); simpl; auto.
Qed.

Lemma fanOut_about hs signal f a o :
  In (Settled f a o) (fst (fanOut outcome hs signal)) ->
  a = signal /\ In (signal, f) hs /\ outcome f signal = o /\ o <> Pends.
Proof.
  induction hs as [| [s g] hs IH]; [intros [] |].
  rewrite fanOut_cons.
  destruct (String.eqb signal s) eqn:E.
  - apply String.eqb_eq in E. subst s.
    destruct (outcome g signal) eqn:O; simpl.
    + intros [H | H].
      * inversion H; subst. repeat split; auto; discriminate.
      * destruct (IH H) as (? & ? & ? & ?). repeat split; auto.
    + intros [H | []]. inversion H; subst. repeat split; auto; discriminate.
    + intros H. destruct (IH H) as (? & ? & ? & ?). repeat split; auto.
  - intros H. destruct (IH H) as (? & ? & ? & ?). repeat split; auto.
    right; assumption.
Qed.

Lemma fanOut_fulfils hs signal :
  snd (fanOut outcome hs signal) = Fulfils <-> allFulfil outcome signal hs.
Proof.
  unfold allFulfil.
  induction hs as [| [s f] hs IH].
  - split; [intros _ h [] | reflexivity].
  - rewrite fanOut_cons.
    destruct (String.eqb signal s) eqn:E.
    + apply String.eqb_eq in E. subst s.
      destruct (outcome f signal) eqn:O; simpl.
      * rewrite IH. split.
        -- intros H h [Hh | Hh]; [congruence | auto].
        -- intros H h Hh. apply H. right; assumption.
      * split; [discriminate |].
        intros H. specialize (H f (or_introl eq_refl)). congruence.
      * split.
        -- destruct (snd (fanOut outcome hs signal)); discriminate.
        -- intros H. specialize (H f (or_introl eq_refl)). congruence.
    + apply String.eqb_neq in E. rewrite IH. split.
      * intros H h [Hh | Hh]; [congruence | auto].
      * intros H h Hh. apply H. right; assumption.
Qed.

Lemma fanOut_fulfils_settlements hs signal :
  allFulfil outcome signal hs -> fst (fanOut outcome hs signal) = settledOf signal hs.
Proof.
  unfold allFulfil, settledOf, matching.
  induction hs as [| [s f] hs IH]; intros H; [reflexivity |].
  rewrite fanOut_cons. simpl.
  destruct (String.eqb signal s) eqn:E.
  - apply String.eqb_eq in E. subst s.
    rewrite (H f (or_introl eq_refl)). simpl.
    rewrite IH; [reflexivity |]. intros h Hh. apply H. right; assumption.
  - apply IH. intros h Hh. apply H. right; assumption.
Qed.

(** The two halves of a chain, spelled out. *)
Lemma awaitCustom_sync pre hs signal fin :
  sync (awaitCustom outcome pre hs signal fin) = pre ++ callsOf signal hs.
Proof.
  unfold awaitCustom.
  rewrite <- callCustomErrorHandler_calls.
  pose proof (eq_refl (fanOut outcome hs signal)) as F. unfold fanOut at 1 in F.
  destruct (callCustomErrorHandler hs signal) as [calls ps]. simpl in *.
  destruct (Promise_all outcome ps). reflexivity.
Qed.

Lemma awaitCustom_resumed pre hs signal fin :
  resumed (awaitCustom outcome pre hs signal fin) =
  fst (fanOut outcome hs signal) ++
  match snd (fanOut outcome hs signal) with
  | Fulfils => fin
  | Rejects => [ListenerRejected]
  | Pends => []
  end.
Proof.
  unfold awaitCustom, fanOut.
  destruct (callCustomErrorHandler hs signal) as [calls ps]. simpl.
  destruct (Promise_all outcome ps). reflexivity.
Qed.

Lemma awaitCustom_fulfilled pre hs signal fin :
  allFulfil outcome signal hs ->
  run (awaitCustom outcome pre hs signal fin) =
  pre ++ callsOf signal hs ++ settledOf signal hs ++ fin.
Proof.
  intros H. unfold run.
  rewrite awaitCustom_sync, awaitCustom_resumed.
  rewrite (fanOut_fulfils_settlements _ _ H).
  apply fanOut_fulfils in H. rewrite H.
  rewrite <- app_assoc. reflexivity.
Qed.

End FanOut.

(** ** Listeners of a reachable process *)

Lemma server_close_finalize server cb :
  Forall (fun e => isFinalize e = true) (server_close server cb).
Proof.
  unfold server_close. destruct (closeCompletes server); repeat constructor.
Qed.

(** Filtering a chain for handler calls. *)
Lemma filter_isCall_logs pre :
  Forall (fun e => isLog e = true) pre -> filter isCall pre = [].
Proof.
  induction 1 as [| e pre He _ IH]; [reflexivity |].
  simpl. destruct e; try discriminate; exact IH.
Qed.

Lemma filter_isCall_settled l :
  Forall (fun e => isSettled e = true) l -> filter isCall l = [].
Proof.
  induction 1 as [| e l He _ IH]; [reflexivity |].
  simpl. destruct e; try discriminate; exact IH.
Qed.

Lemma filter_isCall_finalize l :
  Forall (fun e => isFinalize e = true) l -> filter isCall l = [].
Proof.
  induction 1 as [| e l He _ IH]; [reflexivity |].
  simpl. destruct e; try discriminate; exact IH.
Qed.

Lemma filter_isCall_callsOf signal hs :
  filter isCall (callsOf signal hs) = callsOf signal hs.
Proof.
  unfold callsOf. induction (matching signal hs) as [| e l IH]; [reflexivity |].
  simpl. rewrite IH. reflexivity.
Qed.

Section Listeners.

Variable outcome : Handler -> string -> Outcome.

Lemma reachable_attached p :
  reachable outcome p -> wellAttached outcome p.
Proof.
  unfold wellAttached.
  induction 1 as [latest | server p _ IH | error listener p _ IH | latest p _ IH
                  | latest p _ IH];
    simpl; auto.
  apply Forall_app. split; [exact IH |].
  repeat apply Forall_cons; [| | | | | apply Forall_nil]; unfold attachedBy; auto.
  - right; right; right. exists server, "SIGINT". auto.
  - right; right; right. exists server, "SIGTERM". auto.
Qed.

Lemma attached_recognized name l :
  attachedBy outcome (name, l) -> In name conditionNames.
Proof.
  unfold conditionNames.
  intros [H | [H | [H | (server & signal & [S | S] & H)]]];
    inversion H; subst; simpl; auto 6.
Qed.

(** Every attached listener has the same outline: an optional log, the
    awaited fan-out under the name it is attached with, a finalize
    action. *)
Lemma attached_outline name l :
  attachedBy outcome (name, l) ->
  forall hs latest arg,
  exists pre fin,
    l hs latest arg = awaitCustom outcome pre hs name fin /\
    Forall (fun e => isLog e = true) pre /\
    Forall (fun e => isFinalize e = true) fin /\
    fin <> [] /\
    (name = "exit" -> pre = []) /\
    (name <> "exit" -> exists e, pre = [e]).
Proof.
  intros [H | [H | [H | (server & signal & S & H)]]] hs latest arg;
    inversion H; subst; clear H.
  - eexists _, _. split; [reflexivity |].
    repeat split; try (repeat constructor); try discriminate. eauto.
  - eexists _, _. split; [reflexivity |].
    repeat split; try (repeat constructor); try discriminate. eauto.
  - eexists _, _. split; [reflexivity |].
    repeat split; try (repeat constructor); try discriminate.
    intros N; contradiction N; reflexivity.
  - eexists _, _. split; [reflexivity |].
    repeat split.
    + repeat constructor.
    + apply server_close_finalize.
    + discriminate.
    + destruct S; subst; discriminate.
    + eauto.
Qed.

Lemma emit_In name arg p chain :
  In chain (emit name arg p) ->
  exists l, In (name, l) (processListeners p) /\
            chain = l (customeErrorHandlers p) (latestOnResume p) arg.
Proof.
  unfold emit. rewrite in_map_iff.
  intros ([s l] & <- & H). apply filter_In in H. simpl in H.
  destruct H as [H E]. apply String.eqb_eq in E. subst s.
  exists l. auto.
Qed.

Lemma emit_outline name arg p chain :
  wellAttached outcome p -> In chain (emit name arg p) ->
  In name conditionNames /\
  exists pre fin,
    chain = awaitCustom outcome pre (customeErrorHandlers p) name fin /\
    Forall (fun e => isLog e = true) pre /\
    Forall (fun e => isFinalize e = true) fin /\
    fin <> [] /\
    (name = "exit" -> pre = []) /\
    (name <> "exit" -> exists e, pre = [e]).
Proof.
  intros A H. apply emit_In in H. destruct H as (l & Hl & ->).
  unfold wellAttached in A.
  rewrite Forall_forall in A. specialize (A _ Hl).
  split; [eapply attached_recognized; eassumption |].
  apply attached_outline; assumption.
Qed.

Lemma awaitCustom_calls pre hs signal fin :
  Forall (fun e => isLog e = true) pre ->
  Forall (fun e => isFinalize e = true) fin ->
  filter isCall (run (awaitCustom outcome pre hs signal fin)) = callsOf signal hs /\
  filter isCall (sync (awaitCustom outcome pre hs signal fin)) = callsOf signal hs.
Proof.
  intros Hpre Hfin. unfold run.
  rewrite awaitCustom_sync, awaitCustom_resumed.
  rewrite !filter_app, filter_isCall_logs, filter_isCall_callsOf by assumption.
  rewrite (filter_isCall_settled _ (fanOut_settled outcome hs signal)).
  split; [| reflexivity].
  destruct (snd (fanOut outcome hs signal)); simpl;
    rewrite ?filter_isCall_finalize by assumption;
    rewrite ?app_nil_r; reflexivity.
Qed.

(** The calls of any chain of a reachable process. *)
Lemma emit_calls name arg p chain :
  wellAttached outcome p -> In chain (emit name arg p) ->
  filter isCall (run chain) = callsOf name (customeErrorHandlers p) /\
  filter isCall (sync chain) = callsOf name (customeErrorHandlers p).
Proof.
  intros R H.
  destruct (emit_outline _ _ _ _ R H) as (_ & pre & fin & -> & Hpre & Hfin & _).
  apply awaitCustom_calls; assumption.
Qed.

End Listeners.

(** ** A process on which [register] ran once *)

Section RegisteredOnce.

Variable outcome : Handler -> string -> Outcome.

Lemma registeredOnce_attached server p :
  registeredOnce outcome server p -> wellAttached outcome p.
Proof.
  unfold registeredOnce, wellAttached. intros ->.
  apply (reachable_attached outcome (register outcome server (loaded None))).
  apply reach_register, reach_loaded.
Qed.

Lemma registeredOnce_on server error listener p :
  registeredOnce outcome server p ->
  registeredOnce outcome server (on error listener p).
Proof. unfold registeredOnce. simpl. auto. Qed.

Lemma emit_once_uncaughtException server p arg :
  registeredOnce outcome server p ->
  emit "uncaughtException" arg p =
  [uncaughtExceptionListener outcome (customeErrorHandlers p) (latestOnResume p) arg].
Proof. unfold registeredOnce, emit. intros ->. reflexivity. Qed.

Lemma emit_once_unhandledRejection server p arg :
  registeredOnce outcome server p ->
  emit "unhandledRejection" arg p =
  [unhandledRejectionListener outcome (customeErrorHandlers p) (latestOnResume p) arg].
Proof. unfold registeredOnce, emit. intros ->. reflexivity. Qed.

Lemma emit_once_exit server p arg :
  registeredOnce outcome server p ->
  emit "exit" arg p =
  [exitListener outcome (customeErrorHandlers p) (latestOnResume p) arg].
Proof. unfold registeredOnce, emit. intros ->. reflexivity. Qed.

Lemma emit_once_signal server p signal arg :
  registeredOnce outcome server p ->
  signal = "SIGINT" \/ signal = "SIGTERM" ->
  emit signal arg p =
  [signalListener outcome signal server
                  (customeErrorHandlers p) (latestOnResume p) arg].
Proof.
  unfold registeredOnce, emit. intros -> [-> | ->]; reflexivity.
Qed.

Lemma emit_once_single server p name arg :
  registeredOnce outcome server p -> In name conditionNames ->
  exists chain, emit name arg p = [chain].
Proof.
  intros R [<- | [<- | [<- | [<- | [<- | []]]]]]; eexists.
  - apply (emit_once_uncaughtException _ _ _ R).
  - apply (emit_once_unhandledRejection _ _ _ R).
  - apply (emit_once_exit _ _ _ R).
  - apply (emit_once_signal _ _ _ _ R); auto.
  - apply (emit_once_signal _ _ _ _ R); auto.
Qed.

End RegisteredOnce.

(** ** Counting the calls of one handler *)

Lemma filter_isCallOf_isCall h l :
  filter (isCallOf h) (filter isCall l) = filter (isCallOf h) l.
Proof.
  induction l as [| e l IH]; [reflexivity |].
  destruct e; simpl; rewrite ?IH; reflexivity.
Qed.

Lemma callsOf_app signal hs1 hs2 :
  callsOf signal (hs1 ++ hs2) = callsOf signal hs1 ++ callsOf signal hs2.
Proof. unfold callsOf. rewrite matching_app, map_app. reflexivity. Qed.

Lemma callsOf_same signal h : callsOf signal [(signal, h)] = [Call h signal].
Proof. unfold callsOf, matching. simpl. rewrite String.eqb_refl. reflexivity. Qed.

Lemma callsOf_other signal s h : s <> signal -> callsOf signal [(s, h)] = [].
Proof.
  intros N. unfold callsOf, matching. simpl.
  destruct (String.eqb signal s) eqn:E; [| reflexivity].
  apply String.eqb_eq in E. congruence.
Qed.

Lemma callsOf_In signal hs h a :
  In (Call h a) (callsOf signal hs) <-> a = signal /\ In (signal, h) hs.
Proof.
  unfold callsOf. rewrite in_map_iff. split.
  - intros ([s f] & E & H). simpl in E. inversion E; subst.
    apply matching_In in H. destruct H as [H ->]. auto.
  - intros [-> H]. exists (signal, h). split; [reflexivity |].
    apply matching_In. auto.
Qed.

Lemma In_filter_isCall h a l :
  In (Call h a) l <-> In (Call h a) (filter isCall l).
Proof. rewrite filter_In. simpl. tauto. Qed.

Lemma filter_isCallOf_absent signal hs h :
  ~ In (signal, h) hs -> filter (isCallOf h) (callsOf signal hs) = [].
Proof.
  intros N. unfold callsOf, matching.
  induction hs as [| [s f] hs IH]; [reflexivity |].
  simpl. destruct (String.eqb signal s) eqn:E.
  - apply String.eqb_eq in E. subst s. simpl.
    destruct (Nat.eqb f h) eqn:F.
    + apply Nat.eqb_eq in F. subst f. contradiction N. left; reflexivity.
    + apply IH. intros H. apply N. right; assumption.
  - apply IH. intros H. apply N. right; assumption.
Qed.

Lemma filter_isCallOf_count signal hs h :
  length (filter (isCallOf h) (callsOf signal hs)) = registrationsOf signal h hs.
Proof.
  unfold callsOf, matching, registrationsOf.
  induction hs as [| [s f] hs IH]; [reflexivity |].
  simpl. destruct (String.eqb signal s); simpl; [| exact IH].
  destruct (Nat.eqb f h); simpl; rewrite IH; reflexivity.
Qed.

Section Dispatch.

Variable outcome : Handler -> string -> Outcome.

Lemma attached_calls name l hs latest arg :
  attachedBy outcome (name, l) ->
  filter isCall (run (l hs latest arg)) = callsOf name hs.
Proof.
  intros A.
  destruct (attached_outline outcome name l A hs latest arg)
    as (pre & fin & -> & Hpre & Hfin & _).
  apply awaitCustom_calls; assumption.
Qed.

(** C1, as amended: on a process where [register] ran once, for each of
    the five names [register] attaches a listener under (the process-exit
    one is the string "exit"), registering [h] under the name with [on]
    and emitting the event once starts one chain, in which [h] is called
    exactly once, with the name as its argument, provided [h] was not
    already registered under that name. *)
Theorem on_then_trigger_invokes_once server p C h arg :
  registeredOnce outcome server p ->
  In C conditionNames ->
  ~ In (C, h) (customeErrorHandlers p) ->
  exists chain,
    emit C arg (on C h p) = [chain] /\
    filter (isCallOf h) (run chain) = [Call h C].
Proof.
  intros R HC N.
  pose proof (registeredOnce_on outcome server C h p R) as R'.
  destruct (emit_once_single outcome server _ C arg R' HC) as [chain E].
  exists chain. split; [exact E |].
  assert (In chain (emit C arg (on C h p))) as I by (rewrite E; left; reflexivity).
  pose proof (registeredOnce_attached outcome server _ R') as A.
  destruct (emit_calls outcome C arg _ chain A I) as [Calls _].
  rewrite <- filter_isCallOf_isCall, Calls. simpl.
  rewrite callsOf_app, filter_app, filter_isCallOf_absent by assumption.
  rewrite callsOf_same. simpl. rewrite Nat.eqb_refl. reflexivity.
Qed.

(** C2: when an event named [D] is emitted, the handler calls of each
    chain are exactly those of the entries whose name is the string [D],
    with [D] as argument; the [map] callback does nothing for an entry
    under another name; so a handler registered only under [C], with
    [C <> D], is not called. *)
Theorem dispatch_by_exact_name p D arg chain :
  reachable outcome p ->
  In chain (emit D arg p) ->
  filter isCall (run chain) = callsOf D (customeErrorHandlers p) /\
  (forall C h, C <> D -> errorPromise D (C, h) = ([], Resolved)) /\
  (forall C h, C <> D ->
     (forall s, In (s, h) (customeErrorHandlers p) -> s = C) ->
     forall a, ~ In (Call h a) (run chain)).
Proof.
  intros R I.
  destruct (emit_calls outcome D arg p chain (reachable_attached outcome p R) I)
    as [Calls _].
  split; [exact Calls |]. split.
  - intros C h N. unfold errorPromise.
    destruct (String.eqb D C) eqn:E; [| reflexivity].
    apply String.eqb_eq in E. congruence.
  - intros C h N Only a H.
    apply In_filter_isCall in H. rewrite Calls in H.
    apply callsOf_In in H. destruct H as [_ H].
    apply Only in H. congruence.
Qed.

(** C7: [on] appends to the list and nothing else touches it; when an
    event fires, the calls of each chain are those of all the entries
    under its name, in the order of the list, so every registration of a
    handler, duplicates included, gives one call. *)
Theorem registrations_all_invoked_in_order :
  (forall error listener p,
      customeErrorHandlers (on error listener p) =
      customeErrorHandlers p ++ [(error, listener)]) /\
  (forall server p,
      customeErrorHandlers (register outcome server p) = customeErrorHandlers p) /\
  (forall p name arg chain,
      reachable outcome p -> In chain (emit name arg p) ->
      filter isCall (run chain) =
      map (fun entry => Call (snd entry) name)
          (filter (fun entry => String.eqb name (fst entry))
                  (customeErrorHandlers p)) /\
      forall h, length (filter (isCallOf h) (run chain)) =
                registrationsOf name h (customeErrorHandlers p)).
Proof.
  split; [reflexivity |]. split; [reflexivity |].
  intros p name arg chain R I.
  destruct (emit_calls outcome name arg p chain (reachable_attached outcome p R) I)
    as [Calls _].
  split; [exact Calls |].
  intros h. rewrite <- filter_isCallOf_isCall, Calls.
  apply filter_isCallOf_count.
Qed.

(** C8: [on] takes any string and appends the registration; under a
    string that is none of the names [register] attaches a listener
    under, the registration changes the calls of no chain of any event,
    and a handler registered only under such strings is never called. *)
Theorem on_accepts_any_name s h p :
  reachable outcome p ->
  reachable outcome (on s h p) /\
  customeErrorHandlers (on s h p) = customeErrorHandlers p ++ [(s, h)] /\
  (~ In s conditionNames ->
   forall name arg,
     map (fun c => filter isCall (run c)) (emit name arg (on s h p)) =
     map (fun c => filter isCall (run c)) (emit name arg p)) /\
  (~ In s conditionNames ->
   (forall s', In (s', h) (customeErrorHandlers p) -> ~ In s' conditionNames) ->
   forall name arg chain a,
     In chain (emit name arg (on s h p)) -> ~ In (Call h a) (run chain)).
Proof.
  intros R.
  split; [apply reach_on; exact R |]. split; [reflexivity |].
  pose proof (reachable_attached outcome p R) as A.
  split.
  - intros N name arg. unfold emit. simpl. rewrite !map_map.
    apply map_ext_in. intros [n l] H. apply filter_In in H.
    destruct H as [H E]. simpl in *. apply String.eqb_eq in E. subst n.
    unfold wellAttached in A. rewrite Forall_forall in A. specialize (A _ H).
    rewrite !(attached_calls name l _ _ _ A).
    rewrite callsOf_app, callsOf_other, app_nil_r; [reflexivity |].
    intros ->. apply N. eapply attached_recognized; eassumption.
  - intros N Only name arg chain a I H.
    pose proof (reachable_attached outcome _ (reach_on outcome s h p R)) as A'.
    destruct (emit_outline outcome name arg _ chain A' I) as [Hname _].
    destruct (emit_calls outcome name arg _ chain A' I) as [Calls _].
    apply In_filter_isCall in H. rewrite Calls in H.
    apply callsOf_In in H. destruct H as [_ H]. simpl in H.
    apply in_app_or in H. destruct H as [H | [H | []]].
    + exact (Only _ H Hname).
    + inversion H; subst. exact (N Hname).
Qed.

End Dispatch.

(** ** Order inside one chain *)

Lemma split_after_prefix {A : Type} (P : A -> bool) (pre rest l1 l2 : list A) (e : A) :
  pre ++ rest = l1 ++ e :: l2 ->
  Forall (fun x => P x = false) pre ->
  P e = true ->
  exists t, l1 = pre ++ t /\ rest = t ++ e :: l2.
Proof.
  revert l1. induction pre as [| a pre IH]; intros l1 E F He.
  - exists l1. auto.
  - inversion F as [| ? ? Ha F']; subst.
    destruct l1 as [| b l1]; simpl in E; inversion E; subst.
    + congruence.
    + destruct (IH l1 H1 F' He) as (t & -> & ->). exists t. auto.
Qed.

Lemma logs_not_finalize pre :
  Forall (fun e => isLog e = true) pre -> Forall (fun e => isFinalize e = false) pre.
Proof.
  apply Forall_impl. intros e H. destruct e; try discriminate; reflexivity.
Qed.

Lemma settled_not_finalize l :
  Forall (fun e => isSettled e = true) l -> Forall (fun e => isFinalize e = false) l.
Proof.
  apply Forall_impl. intros e H. destruct e; try discriminate; reflexivity.
Qed.

Lemma callsOf_not_finalize signal hs :
  Forall (fun e => isFinalize e = false) (callsOf signal hs).
Proof.
  unfold callsOf. apply Forall_forall. intros e H.
  apply in_map_iff in H. destruct H as (entry & <- & _). reflexivity.
Qed.

Lemma settledOf_In signal hs h :
  In (signal, h) hs -> In (Settled h signal Fulfils) (settledOf signal hs).
Proof.
  intros H. unfold settledOf. apply in_map_iff.
  exists (signal, h). split; [reflexivity |]. apply matching_In. auto.
Qed.

Section Ordering.

Variable outcome : Handler -> string -> Outcome.

(** What follows the settlements in a chain: nothing while some awaitable
    stays pending, the rejection of the listener's promise after a
    rejection, the finalize action once all have fulfilled. *)
Lemma awaitCustom_tail pre hs signal fin :
  exists settlements tail,
    resumed (awaitCustom outcome pre hs signal fin) = settlements ++ tail /\
    Forall (fun e => isSettled e = true) settlements /\
    (forall f a o, In (Settled f a o) settlements ->
                   a = signal /\ In (signal, f) hs /\ outcome f signal = o) /\
    ((tail = fin /\ allFulfil outcome signal hs /\ settlements = settledOf signal hs) \/
     ((tail = [ListenerRejected] \/ tail = []) /\ ~ allFulfil outcome signal hs)).
Proof.
  rewrite awaitCustom_resumed.
  exists (fst (fanOut outcome hs signal)). eexists. split; [reflexivity |].
  split; [apply fanOut_settled |]. split.
  - intros f a o H. apply fanOut_about in H. tauto.
  - pose proof (fanOut_fulfils outcome hs signal) as F.
    destruct (snd (fanOut outcome hs signal)).
    + left. split; [reflexivity |]. split; [apply F; reflexivity |].
      apply fanOut_fulfils_settlements. apply F. reflexivity.
    + right. split; [auto |]. intros H. apply F in H. discriminate.
    + right. split; [auto |]. intros H. apply F in H. discriminate.
Qed.

(** A finalize event of a chain sits in the finalize action, after the
    log, every call and every settlement; it is there only when every
    awaitable has fulfilled. *)
Lemma awaitCustom_finalize_split pre hs signal fin l1 e l2 :
  Forall (fun e => isLog e = true) pre ->
  run (awaitCustom outcome pre hs signal fin) = l1 ++ e :: l2 ->
  isFinalize e = true ->
  allFulfil outcome signal hs /\
  exists t, l1 = pre ++ callsOf signal hs ++ settledOf signal hs ++ t /\
            fin = t ++ e :: l2.
Proof.
  intros Hpre E He.
  destruct (awaitCustom_tail pre hs signal fin)
    as (settlements & tail & Eres & Hset & _ & Htail).
  unfold run in E. rewrite awaitCustom_sync, Eres in E.
  rewrite app_assoc in E.
  apply (split_after_prefix isFinalize) in E; [| | exact He].
  - destruct E as (t & -> & Et).
    destruct Htail as [(-> & F & ->) | ([-> | ->] & _)].
    + split; [exact F |]. exists t. rewrite <- !app_assoc. auto.
    + destruct t as [| ? [| ? ?]]; inversion Et; subst; discriminate.
    + destruct t; discriminate.
  - apply Forall_app. split; [apply Forall_app; split |].
    + apply logs_not_finalize; assumption.
    + apply callsOf_not_finalize.
    + apply settled_not_finalize; assumption.
Qed.

Lemma awaitCustom_finalize_In pre hs signal fin e :
  Forall (fun e => isLog e = true) pre ->
  In e (run (awaitCustom outcome pre hs signal fin)) ->
  isFinalize e = true ->
  allFulfil outcome signal hs /\ In e fin.
Proof.
  intros Hpre H He. apply in_split in H. destruct H as (l1 & l2 & E).
  destruct (awaitCustom_finalize_split _ _ _ _ _ _ _ Hpre E He) as (F & t & _ & ->).
  split; [exact F |]. apply in_or_app. right. left. reflexivity.
Qed.

(** C3: every chain of a reachable process reads, in this order: the
    log (one message, none for "exit"), the calls of the handlers
    registered under the name, the settlements of their awaitables, then
    the finalize action, which is there only when all the awaitables have
    fulfilled.  So a handler call has the log before it, and a finalize
    event has before it the call and the settlement of every handler
    registered under the name, and only finalize events after it. *)
Theorem reaction_chain_ordered p name arg chain :
  reachable outcome p ->
  In chain (emit name arg p) ->
  (exists pre settlements tail,
      run chain = pre ++ callsOf name (customeErrorHandlers p) ++ settlements ++ tail /\
      sync chain = pre ++ callsOf name (customeErrorHandlers p) /\
      Forall (fun e => isLog e = true) pre /\
      (name = "exit" -> pre = []) /\
      (name <> "exit" -> exists e, pre = [e]) /\
      Forall (fun e => isSettled e = true) settlements /\
      ((Forall (fun e => isFinalize e = true) tail /\ tail <> [] /\
        allFulfil outcome name (customeErrorHandlers p) /\
        settlements = settledOf name (customeErrorHandlers p)) \/
       ((tail = [ListenerRejected] \/ tail = []) /\
        ~ allFulfil outcome name (customeErrorHandlers p)))) /\
  (forall l1 e l2,
      run chain = l1 ++ e :: l2 -> isCall e = true -> name <> "exit" ->
      exists log l1', l1 = log :: l1' /\ isLog log = true) /\
  (forall l1 e l2,
      run chain = l1 ++ e :: l2 -> isFinalize e = true ->
      (forall h, In (name, h) (customeErrorHandlers p) ->
                 In (Call h name) l1 /\ In (Settled h name Fulfils) l1) /\
      Forall (fun x => isFinalize x = true) l2).
Proof.
  intros R I.
  destruct (emit_outline outcome name arg p chain (reachable_attached outcome p R) I)
    as (_ & pre & fin & -> & Hpre & Hfin & Hne & Hexit & Hlog).
  set (hs := customeErrorHandlers p).
  destruct (awaitCustom_tail pre hs name fin)
    as (settlements & tail & Eres & Hset & _ & Htail).
  assert (run (awaitCustom outcome pre hs name fin) =
          pre ++ callsOf name hs ++ settlements ++ tail) as Erun.
  { unfold run. rewrite awaitCustom_sync, Eres, <- app_assoc. reflexivity. }
  split; [| split].
  - exists pre, settlements, tail.
    split; [exact Erun |]. split; [apply awaitCustom_sync |].
    split; [exact Hpre |]. split; [exact Hexit |]. split; [exact Hlog |].
    split; [exact Hset |].
    destruct Htail as [(-> & F & S) | H]; [left | right]; auto.
  - intros l1 e l2 E He Hname. rewrite Erun in E.
    destruct (Hlog Hname) as [log ->].
    inversion Hpre as [| ? ? Hl _]; subst.
    destruct l1 as [| b l1]; simpl in E; inversion E; subst.
    + destruct e; discriminate.
    + eauto.
  - intros l1 e l2 E He.
    destruct (awaitCustom_finalize_split _ _ _ _ _ _ _ Hpre E He)
      as (_ & t & -> & Et).
    split.
    + intros h Hh. split; apply in_or_app; right; apply in_or_app.
      * left. apply callsOf_In. auto.
      * right. apply in_or_app. left. apply settledOf_In. exact Hh.
    + rewrite Et in Hfin. apply Forall_app in Hfin.
      destruct Hfin as [_ Hfin]. inversion Hfin; assumption.
Qed.

End Ordering.

(** ** The finalize actions *)

Lemma append_empty_r (s : string) : (s ++ "")%string = s.
Proof. induction s as [| c s IH]; simpl; [reflexivity | rewrite IH; reflexivity]. Qed.

Lemma killInstance_exits_16 args : killInstance args = ExitWith (Some 16%Z).
Proof. reflexivity. Qed.

Section Finalize.

Variable outcome : Handler -> string -> Outcome.

(** The listeners one call of [register] attaches, in order. *)
Lemma register_listeners server q :
  processListeners (register outcome server q) =
  processListeners q ++
  [("uncaughtException", uncaughtExceptionListener outcome);
   ("unhandledRejection", unhandledRejectionListener outcome);
   ("exit", exitListener outcome);
   ("SIGINT", signalListener outcome "SIGINT" server);
   ("SIGTERM", signalListener outcome "SIGTERM" server)].
Proof. reflexivity. Qed.

(** C4, as amended: on a process where [register] ran once, emitting
    "uncaughtException" with a thrown value starts one chain; when the
    awaitables of the handlers registered under "uncaughtException" fulfil,
    and only then, it ends in a call of [sendCrashResponse] with that value
    as [err], [Response.latest] as read after the [await] as [res] and
    [killInstance] as [callback], and the chain calls [sendCrashResponse]
    in no other way; [killInstance] exits
    with code 16, which is not the default 0 and none of the codes of
    Node.js; a call of [register] attaches one listener under each of the
    five names, and nothing else. *)
Theorem uncaughtException_crash_response server p thrown :
  registeredOnce outcome server p ->
  (exists chain,
      emit "uncaughtException" thrown p = [chain] /\
      (allFulfil outcome "uncaughtException" (customeErrorHandlers p) ->
       run chain =
       ConsoleError "Uncaught exception" ::
       callsOf "uncaughtException" (customeErrorHandlers p) ++
       settledOf "uncaughtException" (customeErrorHandlers p) ++
       [SendCrashResponse
          {| err := thrown; res := latestOnResume p;
             callback := Some killInstance; silent := None |}]) /\
      (forall opts,
          In (SendCrashResponse opts) (run chain) ->
          opts = {| err := thrown; res := latestOnResume p;
                    callback := Some killInstance; silent := None |} /\
          allFulfil outcome "uncaughtException" (customeErrorHandlers p))) /\
  (forall args, killInstance args = ExitWith (Some 16%Z)) /\
  16%Z <> defaultExitCode /\
  usedByNode 16 = false /\
  (forall q, exists attached,
      processListeners (register outcome server q) = processListeners q ++ attached /\
      map fst attached = conditionNames /\
      NoDup conditionNames).
Proof.
  intros R. split; [| split; [| split; [| split]]].
  - eexists. split; [apply (emit_once_uncaughtException outcome server p thrown R) |].
    unfold uncaughtExceptionListener. split.
    + intros F. rewrite (awaitCustom_fulfilled outcome _ _ _ _ F). reflexivity.
    + intros opts H.
      apply awaitCustom_finalize_In in H; [| repeat constructor | reflexivity].
      destruct H as [F [E | []]]. inversion E. auto.
  - exact killInstance_exits_16.
  - discriminate.
  - reflexivity.
  - intros q. eexists. split; [apply register_listeners |].
    split; [reflexivity |].
    unfold conditionNames.
    repeat (apply NoDup_cons; [simpl; intuition discriminate |]).
    apply NoDup_nil.
Qed.

(** C5, as amended: on a process where [register] ran once, emitting
    "exit" with a code starts one chain; when the awaitables of the
    handlers registered under "exit" fulfil, and only then, it ends in a
    call of [sendCrashResponse], and the chain calls it in no other way:
    [err] is a new Error with message
    "Process exited with code " followed by the code in decimal, and
    [silent] is true for code 0 and false for any other code. *)
Theorem exit_crash_response server p code :
  registeredOnce outcome server p ->
  exists chain opts,
    emit "exit" (JsNumber code) p = [chain] /\
    (allFulfil outcome "exit" (customeErrorHandlers p) ->
     run chain =
     callsOf "exit" (customeErrorHandlers p) ++
     settledOf "exit" (customeErrorHandlers p) ++ [SendCrashResponse opts]) /\
    (forall opts',
        In (SendCrashResponse opts') (run chain) ->
        opts' = opts /\ allFulfil outcome "exit" (customeErrorHandlers p)) /\
    res opts = latestOnResume p /\
    callback opts = None /\
    err opts =
    JsError ("Process exited with code " ++
             NilZero.string_of_int (Z.to_int code))%string /\
    (code = 0%Z -> silent opts = Some true) /\
    (code <> 0%Z ->
     silent opts = Some false /\
     exists before after,
       err opts =
       JsError (before ++ NilZero.string_of_int (Z.to_int code) ++ after)%string).
Proof.
  intros R. eexists. eexists.
  split; [apply (emit_once_exit outcome server p (JsNumber code) R) |].
  unfold exitListener. split; [| split].
  - intros F. rewrite (awaitCustom_fulfilled outcome _ _ _ _ F). reflexivity.
  - intros opts' H.
    apply awaitCustom_finalize_In in H; [| constructor | reflexivity].
    destruct H as [F [E | []]]. inversion E. auto.
  - simpl.
    split; [reflexivity |]. split; [reflexivity |]. split; [reflexivity |].
    split.
    + intros ->. reflexivity.
    + intros N. split.
      * apply Z.eqb_neq in N. rewrite N. reflexivity.
      * exists "Process exited with code ", "".
        rewrite append_empty_r. reflexivity.
Qed.

(** C6, as amended: on a process where [register] ran once with [server],
    emitting SIGINT or SIGTERM starts one chain, which calls [close] on
    [server] once the awaitables of the handlers registered under the
    signal have fulfilled, and not otherwise; [process.exit] is called
    only from the
    completion callback of [close], right after it fired, with no code,
    and nothing follows it; the chain never calls [sendCrashResponse]. *)
Theorem signal_close_then_exit server p signal arg :
  registeredOnce outcome server p ->
  signal = "SIGINT" \/ signal = "SIGTERM" ->
  exists chain,
    emit signal arg p = [chain] /\
    (allFulfil outcome signal (customeErrorHandlers p) ->
     run chain =
     ConsoleLog ("Received " ++ signal)%string ::
     callsOf signal (customeErrorHandlers p) ++
     settledOf signal (customeErrorHandlers p) ++
     ServerClose server ::
     (if closeCompletes server
      then [CloseCallback server; ProcessExit (ExitWith None)]
      else [])) /\
    (forall s,
        In (ServerClose s) (run chain) ->
        s = server /\ allFulfil outcome signal (customeErrorHandlers p)) /\
    (forall l1 e l2,
        run chain = l1 ++ ProcessExit e :: l2 ->
        e = ExitWith None /\ l2 = [] /\
        exists l0, l1 = l0 ++ [ServerClose server; CloseCallback server]) /\
    (forall e, In e (run chain) -> isSend e = false).
Proof.
  intros R S. eexists.
  split; [apply (emit_once_signal outcome server p signal arg R S) |].
  unfold signalListener.
  assert (Forall (fun e => isLog e = true) [ConsoleLog ("Received " ++ signal)%string])
    as Hpre by (repeat constructor).
  split; [| split; [| split]].
  - intros F. rewrite (awaitCustom_fulfilled outcome _ _ _ _ F). reflexivity.
  - intros s H.
    destruct (awaitCustom_finalize_In outcome _ _ _ _ _ Hpre H eq_refl) as [F I].
    split; [| exact F]. unfold server_close in I.
    destruct I as [I | I]; [inversion I; reflexivity |].
    destruct (closeCompletes server); simpl in I;
      repeat (destruct I as [I | I]; [discriminate I |]); contradiction.
  - intros l1 e l2 E.
    destruct (awaitCustom_finalize_split outcome _ _ _ _ _ _ _ Hpre E eq_refl)
      as (_ & t & -> & Et).
    unfold server_close in Et.
    destruct (closeCompletes server).
    + destruct t as [| a [| b [| c t]]]; inversion Et; subst.
      * split; [reflexivity |]. split; [reflexivity |].
        eexists. rewrite !app_assoc. reflexivity.
      * destruct t; discriminate.
    + destruct t as [| a [| b t]]; inversion Et.
  - intros e H. destruct (isSend e) eqn:Se; [| reflexivity].
    assert (isFinalize e = true) as Fe by (destruct e; try discriminate; reflexivity).
    destruct (awaitCustom_finalize_In outcome _ _ _ _ _ Hpre H Fe) as [_ I].
    unfold server_close in I.
    destruct (closeCompletes server); simpl in I;
      repeat (destruct I as [I | I]; [subst e; discriminate |]); contradiction.
Qed.

(** C9: in a reachable process, a chain started by "uncaughtException"
    or by "unhandledRejection" hands [sendCrashResponse] no other
    callback than [killInstance], which exits with code 16 whatever it is
    called with; the call is made when the awaitables of the handlers
    registered under the name fulfil. *)
Theorem crash_exit_code_is_16 p name thrown chain :
  reachable outcome p ->
  name = "uncaughtException" \/ name = "unhandledRejection" ->
  In chain (emit name thrown p) ->
  (forall opts,
      In (SendCrashResponse opts) (run chain) ->
      exists cb, callback opts = Some cb /\
                 forall args, cb args = ExitWith (Some 16%Z)) /\
  (allFulfil outcome name (customeErrorHandlers p) ->
   exists opts, In (SendCrashResponse opts) (run chain) /\
                callback opts = Some killInstance).
Proof.
  intros R Hname I.
  apply emit_In in I. destruct I as (l & Hl & ->).
  pose proof (reachable_attached outcome p R) as A.
  unfold wellAttached in A. rewrite Forall_forall in A. specialize (A _ Hl).
  assert (exists msg,
             l = (fun handlers latest e =>
                    awaitCustom outcome [ConsoleError msg] handlers name
                      [SendCrashResponse
                         {| err := e; res := latest;
                            callback := Some killInstance; silent := None |}]))
    as [msg ->].
  { destruct A as [H | [H | [H | (server & signal & [S | S] & H)]]];
      inversion H; subst; destruct Hname as [N | N]; try discriminate N;
        eexists; reflexivity. }
  assert (Forall (fun e => isLog e = true) [ConsoleError msg]) as Hpre
      by (repeat constructor).
  split.
  - intros opts H.
    destruct (awaitCustom_finalize_In outcome _ _ _ _ _ Hpre H eq_refl) as [_ [E | []]].
    inversion E; subst. simpl. exists killInstance.
    split; [reflexivity | exact killInstance_exits_16].
  - intros F.
    exists {| err := thrown; res := latestOnResume p;
              callback := Some killInstance; silent := None |}.
    split; [| reflexivity].
    rewrite (awaitCustom_fulfilled outcome _ _ _ _ F).
    apply in_or_app. right. apply in_or_app. right. apply in_or_app. right.
    left. reflexivity.
Qed.

End Finalize.

(** ** Repeated registration *)

Lemma repeat_snoc {A : Type} (x : A) n : repeat x n ++ [x] = x :: repeat x n.
Proof. induction n as [| n IH]; simpl; [reflexivity | rewrite IH; reflexivity]. Qed.

Section Repeated.

Variable outcome : Handler -> string -> Outcome.

Lemma map_filter_registerTimes {B : Type} (f : string * Listener -> B)
      (g : string * Listener -> bool) n server x :
  map f (filter g (processListeners (register outcome server (loaded None)))) = [x] ->
  map f (filter g (processListeners (registerTimes outcome n server (loaded None)))) =
  repeat x n.
Proof.
  intros E. induction n as [| n IH]; [reflexivity |].
  change (registerTimes outcome (S n) server (loaded None))
    with (register outcome server (registerTimes outcome n server (loaded None))).
  rewrite (register_listeners outcome server
             (registerTimes outcome n server (loaded None))).
  rewrite filter_app, map_app, IH.
  rewrite (register_listeners outcome server (loaded None)) in E.
  cbn [processListeners loaded app] in E. rewrite E.
  apply repeat_snoc.
Qed.

Lemma emit_registerTimes n server p name arg chain :
  registeredTimes outcome n server p ->
  emit name arg (registeredOnceLike outcome server p) = [chain] ->
  emit name arg p = repeat chain n.
Proof.
  unfold registeredTimes, emit, registeredOnceLike.
  cbn [customeErrorHandlers processListeners latestOnResume Response_latest
         storedWhileAwaiting].
  intros -> E. apply map_filter_registerTimes. exact E.
Qed.

Lemma calls_repeat h chain n :
  length (filter (isCallOf h) (concat (map sync (repeat chain n)))) =
  n * length (filter (isCallOf h) (sync chain)).
Proof.
  induction n as [| n IH]; [reflexivity |].
  simpl. rewrite filter_app, length_app, IH. reflexivity.
Qed.

(** C10: every call of [register] appends the same five listeners to
    those already attached, whatever is attached; after [n] calls, an
    event under one of the five names starts [n] chains, each the chain
    a single registration would give, so each handler is called [n]
    times per registration under the name. *)
Theorem register_unguarded n server p name arg :
  registeredTimes outcome n server p ->
  In name conditionNames ->
  (forall q, processListeners (register outcome server q) =
             processListeners q ++
             processListeners (register outcome server (loaded None))) /\
  length (processListeners p) = 5 * n /\
  exists chain,
    emit name arg (registeredOnceLike outcome server p) = [chain] /\
    emit name arg p = repeat chain n /\
    length (emit name arg p) = n /\
    filter isCall (sync chain) = callsOf name (customeErrorHandlers p) /\
    forall h,
      length (filter (isCallOf h) (concat (map sync (emit name arg p)))) =
      n * registrationsOf name h (customeErrorHandlers p).
Proof.
  intros T Hname. split; [reflexivity |]. split.
  - unfold registeredTimes in T. rewrite T. clear T.
    induction n as [| n IH]; [reflexivity |].
    simpl. rewrite length_app, IH. simpl. lia.
  - assert (registeredOnce outcome server (registeredOnceLike outcome server p))
      as R by reflexivity.
    destruct (emit_once_single outcome server _ name arg R Hname) as [chain E].
    exists chain. split; [exact E |].
    pose proof (emit_registerTimes n server p name arg chain T E) as En.
    split; [exact En |]. split; [rewrite En; apply repeat_length |].
    assert (In chain (emit name arg (registeredOnceLike outcome server p))) as I
        by (rewrite E; left; reflexivity).
    destruct (emit_calls outcome name arg _ chain
                (registeredOnce_attached outcome server _ R) I) as [_ Calls].
    simpl in Calls. split; [exact Calls |].
    intros h. rewrite En, calls_repeat.
    rewrite <- filter_isCallOf_isCall, Calls, filter_isCallOf_count. reflexivity.
Qed.

End Repeated.

(** ** The statements on the sample processes *)

(** Go through the entries of a list given in full. *)
Ltac each_entry H :=
  repeat (destruct H as [H | H]; [inversion H; subst; clear H |]);
  try contradiction.

Lemma sample_reachable outcome : reachable outcome (sample outcome).
Proof.
  unfold sample.
  apply reach_on, reach_on, reach_on, reach_latest, reach_register,
    reach_on, reach_loaded.
Qed.

(** The handler registered under "processExit" is never called: no
    listener is attached under that name, and the listener of the exit
    event dispatches under "exit". *)
Lemma processExit_name_never_dispatched :
  In "processExit"
     ["uncaughtException"; "unhandledRejection"; "SIGINT"; "SIGTERM"; "processExit"] /\
  ~ (exists chain,
        emit "processExit" (JsNumber 1) sampleProcessExit = [chain] /\
        filter (isCallOf 5) (run chain) = [Call 5 "processExit"]) /\
  emit "processExit" (JsNumber 1) sampleProcessExit = [] /\
  (forall chain,
      In chain (emit "exit" (JsNumber 1) sampleProcessExit) ->
      filter (isCallOf 5) (run chain) = []).
Proof.
  split; [simpl; auto 6 |]. split; [| split].
  - intros (chain & E & _). discriminate E.
  - reflexivity.
  - intros chain [<- | []]. reflexivity.
Qed.

(** The handler registered under "uncaughtException" rejects: the
    listener's promise rejects at its [await] and [sendCrashResponse] is
    not called. *)
Lemma uncaughtException_rejection_skips_response :
  map run (emit "uncaughtException" (JsError "boom") sampleCrashRejecting) =
  [[ConsoleError "Uncaught exception"; Call 0 "uncaughtException";
    Settled 0 "uncaughtException" Rejects; ListenerRejected]] /\
  (forall chain opts,
      In chain (emit "uncaughtException" (JsError "boom") sampleCrashRejecting) ->
      ~ In (SendCrashResponse opts) (run chain)).
Proof.
  split; [reflexivity |].
  intros chain opts [<- | []] H. simpl in H.
  repeat (destruct H as [H | H]; [discriminate H |]). contradiction.
Qed.

(** The handler registered under "exit" never settles: the listener stays
    suspended and [sendCrashResponse] is not called, for code 0 as for
    another code. *)
Lemma exit_pending_skips_response :
  map run (emit "exit" (JsNumber 0) sampleExitPending) = [[Call 1 "exit"]] /\
  map run (emit "exit" (JsNumber 3) sampleExitPending) = [[Call 1 "exit"]] /\
  (forall chain opts,
      In chain (emit "exit" (JsNumber 0) sampleExitPending) ->
      ~ In (SendCrashResponse opts) (run chain)).
Proof.
  split; [reflexivity |]. split; [reflexivity |].
  intros chain opts [<- | []] H. simpl in H.
  repeat (destruct H as [H | H]; [discriminate H |]). contradiction.
Qed.

(** The handler registered under "SIGTERM" rejects: [server.close] is not
    called and the chain does not end the process. *)
Lemma signal_rejection_skips_close :
  map run (emit "SIGTERM" JsUndefined sampleSignalRejecting) =
  [[ConsoleLog "Received SIGTERM"; Call 0 "SIGTERM";
    Settled 0 "SIGTERM" Rejects; ListenerRejected]] /\
  (forall chain e,
      In chain (emit "SIGTERM" JsUndefined sampleSignalRejecting) ->
      In e (run chain) -> isShutdown e = false).
Proof.
  split; [reflexivity |].
  intros chain e [<- | []] H. simpl in H.
  repeat (destruct H as [H | H]; [subst e; reflexivity |]). contradiction.
Qed.

Lemma on_then_trigger_invokes_once_witness :
  registeredOnce settling server0 sampleProcess /\
  In "exit" conditionNames /\
  ~ In ("exit", 5) (customeErrorHandlers sampleProcess) /\
  exists chain,
    emit "exit" (JsNumber 0) (on "exit" 5 sampleProcess) = [chain] /\
    filter (isCallOf 5) (run chain) = [Call 5 "exit"].
Proof.
  assert (~ In ("exit", 5) (customeErrorHandlers sampleProcess)) as N.
  { intros H. each_entry H. }
  split; [reflexivity |]. split; [simpl; auto |]. split; [exact N |].
  apply (on_then_trigger_invokes_once settling server0 sampleProcess "exit" 5
           (JsNumber 0)).
  - reflexivity.
  - simpl; auto.
  - exact N.
Defined.

Lemma dispatch_by_exact_name_witness :
  reachable settling sampleProcess /\
  In sampleExitChain (emit "exit" (JsNumber 0) sampleProcess) /\
  filter isCall (run sampleExitChain) =
  callsOf "exit" (customeErrorHandlers sampleProcess) /\
  (forall C h, C <> "exit" -> errorPromise "exit" (C, h) = ([], Resolved)) /\
  (forall C h, C <> "exit" ->
     (forall s, In (s, h) (customeErrorHandlers sampleProcess) -> s = C) ->
     forall a, ~ In (Call h a) (run sampleExitChain)).
Proof.
  assert (reachable settling sampleProcess) as R by apply sample_reachable.
  assert (In sampleExitChain (emit "exit" (JsNumber 0) sampleProcess)) as I
      by (left; reflexivity).
  split; [exact R |]. split; [exact I |].
  exact (dispatch_by_exact_name settling sampleProcess "exit" (JsNumber 0)
           sampleExitChain R I).
Defined.

Lemma registrations_all_invoked_in_order_witness :
  reachable settling sampleTwice /\
  In sampleTwiceChain (emit "uncaughtException" (JsError "boom") sampleTwice) /\
  filter isCall (run sampleTwiceChain) =
  [Call 3 "uncaughtException"; Call 2 "uncaughtException";
   Call 3 "uncaughtException"] /\
  length (filter (isCallOf 3) (run sampleTwiceChain)) = 2.
Proof.
  assert (reachable settling sampleTwice) as R
      by apply reach_on, sample_reachable.
  assert (In sampleTwiceChain
             (emit "uncaughtException" (JsError "boom") sampleTwice)) as I
      by (left; reflexivity).
  split; [exact R |]. split; [exact I |].
  destruct (registrations_all_invoked_in_order settling) as (_ & _ & H).
  destruct (H sampleTwice "uncaughtException" (JsError "boom") sampleTwiceChain R I)
    as [Calls Count].
  split; [rewrite Calls; reflexivity | rewrite Count; reflexivity].
Defined.

Lemma on_accepts_any_name_witness :
  reachable settling sampleProcess /\
  reachable settling (on "sigterm" 9 sampleProcess) /\
  customeErrorHandlers (on "sigterm" 9 sampleProcess) =
  customeErrorHandlers sampleProcess ++ [("sigterm", 9)] /\
  (~ In "sigterm" conditionNames ->
   forall name arg,
     map (fun c => filter isCall (run c))
         (emit name arg (on "sigterm" 9 sampleProcess)) =
     map (fun c => filter isCall (run c)) (emit name arg sampleProcess)) /\
  (~ In "sigterm" conditionNames ->
   (forall s', In (s', 9) (customeErrorHandlers sampleProcess) ->
               ~ In s' conditionNames) ->
   forall name arg chain a,
     In chain (emit name arg (on "sigterm" 9 sampleProcess)) ->
     ~ In (Call 9 a) (run chain)).
Proof.
  assert (reachable settling sampleProcess) as R by apply sample_reachable.
  split; [exact R |].
  exact (on_accepts_any_name settling "sigterm" 9 sampleProcess R).
Defined.

Lemma reaction_chain_ordered_witness :
  reachable settling sampleProcess /\
  In sampleSignalChain (emit "SIGINT" JsUndefined sampleProcess) /\
  (forall l1 e l2,
      run sampleSignalChain = l1 ++ e :: l2 -> isCall e = true ->
      "SIGINT" <> "exit" ->
      exists log l1', l1 = log :: l1' /\ isLog log = true) /\
  (forall l1 e l2,
      run sampleSignalChain = l1 ++ e :: l2 -> isFinalize e = true ->
      (forall h, In ("SIGINT", h) (customeErrorHandlers sampleProcess) ->
                 In (Call h "SIGINT") l1 /\ In (Settled h "SIGINT" Fulfils) l1) /\
      Forall (fun x => isFinalize x = true) l2).
Proof.
  assert (reachable settling sampleProcess) as R by apply sample_reachable.
  assert (In sampleSignalChain (emit "SIGINT" JsUndefined sampleProcess)) as I
      by (left; reflexivity).
  split; [exact R |]. split; [exact I |].
  exact (proj2 (reaction_chain_ordered settling sampleProcess "SIGINT" JsUndefined
                  sampleSignalChain R I)).
Defined.

Lemma uncaughtException_crash_response_witness :
  registeredOnce settling server0 sampleProcess /\
  allFulfil settling "uncaughtException" (customeErrorHandlers sampleProcess) /\
  exists chain,
    emit "uncaughtException" (JsError "boom") sampleProcess = [chain] /\
    run chain =
    [ConsoleError "Uncaught exception";
     Call 3 "uncaughtException"; Call 2 "uncaughtException";
     Settled 3 "uncaughtException" Fulfils; Settled 2 "uncaughtException" Fulfils;
     SendCrashResponse
       {| err := JsError "boom"; res := Some 7;
          callback := Some killInstance; silent := None |}].
Proof.
  assert (registeredOnce settling server0 sampleProcess) as R by reflexivity.
  assert (allFulfil settling "uncaughtException"
                    (customeErrorHandlers sampleProcess)) as F.
  { intros h H. each_entry H; reflexivity. }
  split; [exact R |]. split; [exact F |].
  destruct (uncaughtException_crash_response settling server0 sampleProcess
              (JsError "boom") R) as [(chain & E & Run & _) _].
  exists chain. split; [exact E |]. rewrite (Run F). reflexivity.
Defined.

Lemma exit_crash_response_witness :
  registeredOnce settling server0 sampleProcess /\
  allFulfil settling "exit" (customeErrorHandlers sampleProcess) /\
  exists chain opts,
    emit "exit" (JsNumber 3) sampleProcess = [chain] /\
    run chain = [Call 3 "exit"; Settled 3 "exit" Fulfils; SendCrashResponse opts] /\
    err opts = JsError "Process exited with code 3" /\
    silent opts = Some false.
Proof.
  assert (registeredOnce settling server0 sampleProcess) as R by reflexivity.
  assert (allFulfil settling "exit" (customeErrorHandlers sampleProcess)) as F.
  { intros h H. each_entry H; reflexivity. }
  split; [exact R |]. split; [exact F |].
  destruct (exit_crash_response settling server0 sampleProcess 3%Z R)
    as (chain & opts & E & Run & _ & _ & _ & Err & _ & Silent).
  exists chain, opts. split; [exact E |]. split; [rewrite (Run F); reflexivity |].
  split; [rewrite Err; reflexivity |].
  apply Silent. discriminate.
Defined.

Lemma signal_close_then_exit_witness :
  registeredOnce settling server0 sampleProcess /\
  ("SIGINT" = "SIGINT" \/ "SIGINT" = "SIGTERM") /\
  allFulfil settling "SIGINT" (customeErrorHandlers sampleProcess) /\
  exists chain,
    emit "SIGINT" JsUndefined sampleProcess = [chain] /\
    run chain =
    [ConsoleLog "Received SIGINT"; Call 4 "SIGINT"; Settled 4 "SIGINT" Fulfils;
     ServerClose server0; CloseCallback server0; ProcessExit (ExitWith None)] /\
    (forall e, In e (run chain) -> isSend e = false).
Proof.
  assert (registeredOnce settling server0 sampleProcess) as R by reflexivity.
  assert (allFulfil settling "SIGINT" (customeErrorHandlers sampleProcess)) as F.
  { intros h H. each_entry H; reflexivity. }
  split; [exact R |]. split; [left; reflexivity |]. split; [exact F |].
  destruct (signal_close_then_exit settling server0 sampleProcess "SIGINT"
              JsUndefined R (or_introl eq_refl))
    as (chain & E & Run & _ & _ & NoSend).
  exists chain. split; [exact E |].
  split; [rewrite (Run F); reflexivity | exact NoSend].
Defined.

Lemma crash_exit_code_is_16_witness :
  reachable settling sampleProcess /\
  ("unhandledRejection" = "uncaughtException" \/
   "unhandledRejection" = "unhandledRejection") /\
  In sampleRejectionChain
     (emit "unhandledRejection" (JsString "late") sampleProcess) /\
  (forall opts,
      In (SendCrashResponse opts) (run sampleRejectionChain) ->
      exists cb, callback opts = Some cb /\
                 forall args, cb args = ExitWith (Some 16%Z)) /\
  (allFulfil settling "unhandledRejection" (customeErrorHandlers sampleProcess) ->
   exists opts, In (SendCrashResponse opts) (run sampleRejectionChain) /\
                callback opts = Some killInstance).
Proof.
  assert (reachable settling sampleProcess) as R by apply sample_reachable.
  assert (In sampleRejectionChain
             (emit "unhandledRejection" (JsString "late") sampleProcess)) as I
      by (left; reflexivity).
  split; [exact R |]. split; [right; reflexivity |]. split; [exact I |].
  exact (crash_exit_code_is_16 settling sampleProcess "unhandledRejection"
           (JsString "late") sampleRejectionChain R (or_intror eq_refl) I).
Defined.

Lemma register_unguarded_witness :
  registeredTimes settling 3 server0 sampleThrice /\
  In "SIGTERM" conditionNames /\
  length (processListeners sampleThrice) = 15 /\
  length (emit "SIGTERM" JsUndefined sampleThrice) = 3 /\
  length (filter (isCallOf 2)
                 (concat (map sync (emit "SIGTERM" JsUndefined sampleThrice)))) = 6.
Proof.
  assert (registeredTimes settling 3 server0 sampleThrice) as T by reflexivity.
  assert (In "SIGTERM" conditionNames) as N by (simpl; auto 6).
  split; [exact T |]. split; [exact N |].
  destruct (register_unguarded settling 3 server0 sampleThrice "SIGTERM"
              JsUndefined T N)
    as (_ & Len & chain & _ & _ & Chains & _ & Calls).
  split; [exact Len |]. split; [exact Chains |].
  rewrite Calls. reflexivity.
Defined.

(** ** Rejecting and pending handlers *)

Section Settling.

Variable outcome : Handler -> string -> Outcome.

(** [Promise.all] rejects exactly when one of the awaited promises does. *)
Lemma fanOut_rejects hs signal :
  snd (fanOut outcome hs signal) = Rejects <->
  exists h, In (signal, h) hs /\ outcome h signal = Rejects.
Proof.
  induction hs as [| [s f] hs IH].
  - split; [discriminate | intros (h & [] & _)].
  - rewrite fanOut_cons.
    destruct (String.eqb signal s) eqn:E.
    + apply String.eqb_eq in E. subst s.
      destruct (outcome f signal) eqn:O; simpl.
      * rewrite IH. split.
        -- intros (h & H & R). exists h. split; [right; exact H | exact R].
        -- intros (h & [H | H] & R); [inversion H; congruence | eauto].
      * split; [| reflexivity]. intros _. exists f. split; [left; reflexivity | exact O].
      * split.
        -- intros H.
           destruct (snd (fanOut outcome hs signal)); try discriminate.
           destruct (proj1 IH eq_refl) as (h & Hh & R).
           exists h. split; [right; exact Hh | exact R].
        -- intros (h & [H | H] & R); [inversion H; congruence |].
           rewrite (proj2 IH (ex_intro _ h (conj H R))). reflexivity.
    + apply String.eqb_neq in E. rewrite IH. split.
      * intros (h & H & R). exists h. split; [right; exact H | exact R].
      * intros (h & [H | H] & R); [inversion H; congruence | eauto].
Qed.

(** It stays pending exactly when none rejects and one never settles. *)
Lemma fanOut_pends hs signal :
  snd (fanOut outcome hs signal) = Pends <->
  (exists h, In (signal, h) hs /\ outcome h signal = Pends) /\
  (forall h, In (signal, h) hs -> outcome h signal <> Rejects).
Proof.
  split.
  - intros P. split.
    + induction hs as [| [s f] hs IH]; [discriminate P |].
      rewrite fanOut_cons in P.
      destruct (String.eqb signal s) eqn:E.
      * apply String.eqb_eq in E. subst s.
        destruct (outcome f signal) eqn:O; simpl in P.
        -- destruct (IH P) as (h & H & Q). exists h. split; [right; exact H | exact Q].
        -- discriminate P.
        -- exists f. split; [left; reflexivity | exact O].
      * destruct (IH P) as (h & H & Q). exists h. split; [right; exact H | exact Q].
    + intros h H R.
      assert (snd (fanOut outcome hs signal) = Rejects) as Q
          by (apply fanOut_rejects; eauto).
      congruence.
  - intros [(h & H & Q) N].
    destruct (snd (fanOut outcome hs signal)) eqn:S; [| | reflexivity].
    + apply fanOut_fulfils in S. specialize (S h H). congruence.
    + apply fanOut_rejects in S. destruct S as (g & Hg & R).
      contradiction (N g Hg R).
Qed.

(** The events of a chain, by the part they come from. *)
Lemma awaitCustom_In pre hs signal fin e :
  In e (run (awaitCustom outcome pre hs signal fin)) <->
  In e pre \/ In e (callsOf signal hs) \/ In e (fst (fanOut outcome hs signal)) \/
  In e (match snd (fanOut outcome hs signal) with
        | Fulfils => fin
        | Rejects => [ListenerRejected]
        | Pends => []
        end).
Proof.
  unfold run. rewrite awaitCustom_sync, awaitCustom_resumed, !in_app_iff. tauto.
Qed.

Lemma awaitCustom_rejected pre hs signal fin :
  Forall (fun e => isLog e = true) pre ->
  Forall (fun e => isFinalize e = true) fin ->
  (In ListenerRejected (run (awaitCustom outcome pre hs signal fin)) <->
   snd (fanOut outcome hs signal) = Rejects).
Proof.
  intros Hpre Hfin. rewrite awaitCustom_In. rewrite Forall_forall in Hpre, Hfin.
  split.
  - intros [H | [H | [H | H]]].
    + apply Hpre in H. discriminate H.
    + unfold callsOf in H. apply in_map_iff in H. destruct H as (? & H & _).
      discriminate H.
    + pose proof (fanOut_settled outcome hs signal) as S.
      rewrite Forall_forall in S. apply S in H. discriminate H.
    + destruct (snd (fanOut outcome hs signal)); [| reflexivity | contradiction].
      apply Hfin in H. discriminate H.
  - intros ->. right; right; right. left. reflexivity.
Qed.

Lemma awaitCustom_finalize_free pre hs signal fin e :
  Forall (fun e => isLog e = true) pre ->
  snd (fanOut outcome hs signal) <> Fulfils ->
  In e (run (awaitCustom outcome pre hs signal fin)) ->
  isFinalize e = false.
Proof.
  intros Hpre N H.
  destruct (isFinalize e) eqn:F; [| reflexivity].
  destruct (awaitCustom_finalize_In outcome _ _ _ _ _ Hpre H F) as [A _].
  apply fanOut_fulfils in A. contradiction.
Qed.

(** X1: in a reachable process, the promise of a listener rejects exactly
    when the awaitable of some handler registered under the firing name
    rejects, whatever the other handlers do; the chain then holds no
    finalize event: no crash response, no [server.close], no
    [process.exit]. *)
Theorem rejecting_handler_skips_finalize p name arg chain :
  reachable outcome p ->
  In chain (emit name arg p) ->
  (In ListenerRejected (run chain) <->
   exists h, In (name, h) (customeErrorHandlers p) /\ outcome h name = Rejects) /\
  (In ListenerRejected (run chain) ->
   forall e, In e (run chain) -> isFinalize e = false).
Proof.
  intros R I.
  destruct (emit_outline outcome name arg p chain (reachable_attached outcome p R) I)
    as (_ & pre & fin & -> & Hpre & Hfin & _).
  rewrite (awaitCustom_rejected _ _ _ _ Hpre Hfin). split.
  - apply fanOut_rejects.
  - intros S e H. apply (awaitCustom_finalize_free _ _ _ _ _ Hpre) in H; [exact H |].
    congruence.
Qed.

(** X2: in a reachable process, a chain holds neither a finalize event nor
    the rejection of the listener's promise, so that the listener stays
    suspended at its [await], exactly when no awaitable of a handler
    registered under the firing name rejects and one of them never
    settles. *)
Theorem pending_handler_suspends p name arg chain :
  reachable outcome p ->
  In chain (emit name arg p) ->
  ((forall e, In e (run chain) -> isFinalize e = false /\ e <> ListenerRejected) <->
   (exists h, In (name, h) (customeErrorHandlers p) /\ outcome h name = Pends) /\
   (forall h, In (name, h) (customeErrorHandlers p) -> outcome h name <> Rejects)).
Proof.
  intros R I.
  destruct (emit_outline outcome name arg p chain (reachable_attached outcome p R) I)
    as (_ & pre & fin & -> & Hpre & Hfin & Hne & _).
  rewrite <- fanOut_pends. split.
  - intros H.
    destruct (snd (fanOut outcome (customeErrorHandlers p) name)) eqn:S;
      [| | reflexivity].
    + destruct fin as [| e fin]; [contradiction Hne; reflexivity |].
      assert (In e (run (awaitCustom outcome pre (customeErrorHandlers p) name
                                     (e :: fin)))) as He.
      { apply awaitCustom_In. right; right; right. rewrite S. left. reflexivity. }
      destruct (H e He) as [F _]. inversion Hfin; subst. congruence.
    + assert (In ListenerRejected
                 (run (awaitCustom outcome pre (customeErrorHandlers p) name fin)))
        as He by (apply awaitCustom_rejected; assumption).
      destruct (H _ He) as [_ N]. contradiction N. reflexivity.
  - intros S e H. split.
    + apply (awaitCustom_finalize_free _ _ _ _ _ Hpre) in H; [exact H | congruence].
    + intros ->. apply awaitCustom_rejected in H; [congruence | assumption..].
Qed.

End Settling.

Lemma rejecting_handler_skips_finalize_witness :
  reachable settling sampleRejecting /\
  In sampleRejectingChain (emit "SIGINT" JsUndefined sampleRejecting) /\
  In ListenerRejected (run sampleRejectingChain) /\
  (exists h, In ("SIGINT", h) (customeErrorHandlers sampleRejecting) /\
             settling h "SIGINT" = Rejects) /\
  (forall e, In e (run sampleRejectingChain) -> isFinalize e = false).
Proof.
  assert (reachable settling sampleRejecting) as R
      by apply reach_on, reach_on, sample_reachable.
  assert (In sampleRejectingChain (emit "SIGINT" JsUndefined sampleRejecting)) as I
      by (left; reflexivity).
  assert (exists h, In ("SIGINT", h) (customeErrorHandlers sampleRejecting) /\
                    settling h "SIGINT" = Rejects) as E.
  { exists 0. split; [simpl; auto 8 | reflexivity]. }
  destruct (rejecting_handler_skips_finalize settling sampleRejecting "SIGINT"
              JsUndefined sampleRejectingChain R I) as [Iff Free].
  split; [exact R |]. split; [exact I |].
  split; [apply Iff; exact E |]. split; [exact E |].
  apply Free, Iff, E.
Defined.

Lemma pending_handler_suspends_witness :
  reachable settling samplePending /\
  In samplePendingChain (emit "SIGINT" JsUndefined samplePending) /\
  (exists h, In ("SIGINT", h) (customeErrorHandlers samplePending) /\
             settling h "SIGINT" = Pends) /\
  (forall h, In ("SIGINT", h) (customeErrorHandlers samplePending) ->
             settling h "SIGINT" <> Rejects) /\
  (forall e, In e (run samplePendingChain) ->
             isFinalize e = false /\ e <> ListenerRejected).
Proof.
  assert (reachable settling samplePending) as R
      by apply reach_on, sample_reachable.
  assert (In samplePendingChain (emit "SIGINT" JsUndefined samplePending)) as I
      by (left; reflexivity).
  assert (exists h, In ("SIGINT", h) (customeErrorHandlers samplePending) /\
                    settling h "SIGINT" = Pends) as E.
  { exists 1. split; [simpl; auto 8 | reflexivity]. }
  assert (forall h, In ("SIGINT", h) (customeErrorHandlers samplePending) ->
                    settling h "SIGINT" <> Rejects) as N.
  { intros h H. each_entry H; discriminate. }
  split; [exact R |]. split; [exact I |]. split; [exact E |]. split; [exact N |].
  apply (pending_handler_suspends settling samplePending "SIGINT" JsUndefined
           samplePendingChain R I).
  split; [exact E | exact N].
Defined.

(** ** Any order of calls *)

Lemma map_filter_flat_map {A B C : Type} (f : B -> C) (g : B -> bool)
      (k : A -> list B) (l : list A) :
  map f (filter g (flat_map k l)) = flat_map (fun a => map f (filter g (k a))) l.
Proof.
  induction l as [| a l IH]; [reflexivity |].
  simpl. rewrite filter_app, map_app, IH. reflexivity.
Qed.

Lemma flat_map_singleton {A B : Type} (f : A -> B) (l : list A) :
  flat_map (fun a => [f a]) l = map f l.
Proof. induction l as [| a l IH]; simpl; [| rewrite IH]; reflexivity. Qed.

Lemma closedServers_app l1 l2 :
  closedServers (l1 ++ l2) = closedServers l1 ++ closedServers l2.
Proof.
  induction l1 as [| e l1 IH]; [reflexivity |].
  destruct e; simpl; rewrite IH; reflexivity.
Qed.

Lemma closedServers_callsOf signal hs : closedServers (callsOf signal hs) = [].
Proof.
  unfold callsOf. induction (matching signal hs) as [| e l IH]; [reflexivity | exact IH].
Qed.

Lemma closedServers_settledOf signal hs : closedServers (settledOf signal hs) = [].
Proof.
  unfold settledOf. induction (matching signal hs) as [| e l IH]; [reflexivity | exact IH].
Qed.

Lemma closedServers_server_close server cb :
  closedServers (server_close server cb) = [server].
Proof. unfold server_close. destruct (closeCompletes server); reflexivity. Qed.

Section Histories.

Variable outcome : Handler -> string -> Outcome.

Lemma perform_handlers ops p :
  customeErrorHandlers (perform outcome ops p) = customeErrorHandlers p ++ handlersOf ops.
Proof.
  unfold perform. revert p.
  induction ops as [| op ops IH]; intros p; simpl; [rewrite app_nil_r; reflexivity |].
  rewrite IH. destruct op; simpl; [reflexivity | | reflexivity | reflexivity].
  rewrite <- app_assoc. reflexivity.
Qed.

Lemma perform_listeners ops p :
  processListeners (perform outcome ops p) =
  processListeners p ++ flat_map (listenersOf outcome) (serversOf ops).
Proof.
  unfold perform. revert p.
  induction ops as [| op ops IH]; intros p; simpl; [rewrite app_nil_r; reflexivity |].
  rewrite IH. destruct op; simpl; [| reflexivity | reflexivity | reflexivity].
  rewrite <- app_assoc. reflexivity.
Qed.

Lemma perform_reachable ops p :
  reachable outcome p -> reachable outcome (perform outcome ops p).
Proof.
  unfold perform. revert p.
  induction ops as [| op ops IH]; intros p R; simpl; [exact R |].
  apply IH. destruct op; simpl; constructor; exact R.
Qed.

(** After any history, an event starts the chains that single
    registrations with the servers of the history would start, one after
    the other. *)
Lemma emit_perform ops latest name arg :
  emit name arg (perform outcome ops (loaded latest)) =
  flat_map (fun server =>
              emit name arg
                   (registeredOnceLike outcome server
                                       (perform outcome ops (loaded latest))))
           (serversOf ops).
Proof.
  unfold emit at 1. rewrite perform_listeners.
  exact (map_filter_flat_map
           (fun l : string * Listener =>
              snd l (customeErrorHandlers (perform outcome ops (loaded latest)))
                  (latestOnResume (perform outcome ops (loaded latest))) arg)
           (fun l : string * Listener => String.eqb name (fst l))
           (listenersOf outcome) (serversOf ops)).
Qed.

Lemma emit_other_name server p name arg :
  ~ In name conditionNames ->
  emit name arg (registeredOnceLike outcome server p) = [].
Proof.
  intros N.
  destruct (emit name arg (registeredOnceLike outcome server p)) as [| chain l] eqn:E;
    [reflexivity |].
  assert (In chain (emit name arg (registeredOnceLike outcome server p))) as I
      by (rewrite E; left; reflexivity).
  apply (emit_outline outcome) in I; [destruct I as [I _]; contradiction |].
  apply (registeredOnce_attached outcome server). reflexivity.
Qed.

(** X3: whatever the order in which [register], [on] and the invoker were
    called since the module was loaded, an event under one of the five
    names starts as many chains as [register] was called, an event under
    any other name starts none, and every chain calls the handlers that
    the calls of [on] registered under the name, in the order of those
    calls, whether they came before or after [register]. *)
Theorem registrations_any_order ops latest name arg :
  length (emit name arg (perform outcome ops (loaded latest))) =
  (if existsb (String.eqb name) conditionNames then length (serversOf ops) else 0) /\
  (forall chain,
      In chain (emit name arg (perform outcome ops (loaded latest))) ->
      filter isCall (run chain) = callsOf name (handlersOf ops)).
Proof.
  split.
  - rewrite emit_perform.
    destruct (existsb (String.eqb name) conditionNames) eqn:E.
    + apply existsb_exists in E. destruct E as (n & Hn & E).
      apply String.eqb_eq in E. subst n.
      induction (serversOf ops) as [| server l IH]; [reflexivity |].
      simpl. rewrite length_app, IH.
      destruct (emit_once_single outcome server
                  (registeredOnceLike outcome server
                     (perform outcome ops (loaded latest)))
                  name arg eq_refl Hn) as [chain ->].
      reflexivity.
    + assert (~ In name conditionNames) as N.
      { intros H. assert (existsb (String.eqb name) conditionNames = true) as T.
        { apply existsb_exists. exists name. split; [exact H | apply String.eqb_refl]. }
        congruence. }
      induction (serversOf ops) as [| server l IH]; [reflexivity |].
      simpl. rewrite (emit_other_name _ _ _ _ N). exact IH.
  - intros chain I.
    assert (reachable outcome (perform outcome ops (loaded latest))) as R
        by apply perform_reachable, reach_loaded.
    destruct (emit_calls outcome name arg _ chain (reachable_attached outcome _ R) I)
      as [Calls _].
    rewrite Calls, perform_handlers. reflexivity.
Qed.

(** X4: each listener of SIGINT and SIGTERM keeps the server its call of
    [register] was given: after any history, the chains of a signal are
    those of the signal listeners of the registered servers, in the order
    of registration, and when the awaitables of the handlers registered
    under the signal fulfil, the k-th chain closes the k-th server and no
    other. *)
Theorem signal_closes_registered_servers ops latest signal arg :
  signal = "SIGINT" \/ signal = "SIGTERM" ->
  emit signal arg (perform outcome ops (loaded latest)) =
  map (fun server =>
         signalListener outcome signal server (handlersOf ops)
                        (latestOnResume (perform outcome ops (loaded latest))) arg)
      (serversOf ops) /\
  (allFulfil outcome signal (handlersOf ops) ->
   map (fun chain => closedServers (run chain))
       (emit signal arg (perform outcome ops (loaded latest))) =
   map (fun server => [server]) (serversOf ops)).
Proof.
  intros S.
  assert (emit signal arg (perform outcome ops (loaded latest)) =
          map (fun server =>
                 signalListener outcome signal server (handlersOf ops)
                   (latestOnResume (perform outcome ops (loaded latest))) arg)
              (serversOf ops)) as E.
  { rewrite emit_perform, <- flat_map_singleton.
    apply flat_map_ext. intros server.
    rewrite (emit_once_signal outcome server
               (registeredOnceLike outcome server
                  (perform outcome ops (loaded latest)))
               signal arg eq_refl S).
    simpl. rewrite perform_handlers. reflexivity. }
  split; [exact E |].
  intros F. rewrite E, map_map. apply map_ext. intros server.
  unfold signalListener.
  rewrite (awaitCustom_fulfilled outcome _ _ _ _ F).
  rewrite !closedServers_app, closedServers_callsOf, closedServers_settledOf.
  simpl. apply closedServers_server_close.
Qed.

End Histories.

Lemma signal_closes_registered_servers_witness :
  ("SIGINT" = "SIGINT" \/ "SIGINT" = "SIGTERM") /\
  allFulfil settling "SIGINT" (handlersOf sampleHistory) /\
  map (fun chain => closedServers (run chain))
      (emit "SIGINT" JsUndefined (perform settling sampleHistory (loaded None))) =
  [[server0]; [server1]].
Proof.
  assert (allFulfil settling "SIGINT" (handlersOf sampleHistory)) as F.
  { intros h H. each_entry H; reflexivity. }
  split; [left; reflexivity |]. split; [exact F |].
  destruct (signal_closes_registered_servers settling sampleHistory None "SIGINT"
              JsUndefined (or_introl eq_refl)) as [_ Closed].
  rewrite (Closed F). reflexivity.
Defined.

Lemma registrations_any_order_witness :
  length (emit "SIGINT" JsUndefined (perform settling sampleHistory (loaded None))) = 2 /\
  length (emit "sigint" JsUndefined (perform settling sampleHistory (loaded None))) = 0 /\
  map (fun chain => filter isCall (run chain))
      (emit "SIGINT" JsUndefined (perform settling sampleHistory (loaded None))) =
  [[Call 4 "SIGINT"; Call 2 "SIGINT"]; [Call 4 "SIGINT"; Call 2 "SIGINT"]].
Proof.
  destruct (registrations_any_order settling sampleHistory None "SIGINT" JsUndefined)
    as [Len Calls].
  destruct (registrations_any_order settling sampleHistory None "sigint" JsUndefined)
    as [Len' _].
  split; [exact Len |]. split; [exact Len' |].
  assert (forall l : list Chain,
             (forall chain, In chain l ->
                            filter isCall (run chain) =
                            callsOf "SIGINT" (handlersOf sampleHistory)) ->
             map (fun chain => filter isCall (run chain)) l =
             repeat (callsOf "SIGINT" (handlersOf sampleHistory)) (length l)) as All.
  { induction l as [| c l IH]; intros H; [reflexivity |].
    simpl. rewrite (H c (or_introl eq_refl)), IH; [reflexivity |].
    intros chain I. apply H. right. exact I. }
  rewrite (All _ Calls), Len. reflexivity.
Defined.

(** ** The crash chains *)

Section Crash.

Variable outcome : Handler -> string -> Outcome.

(** The three listeners that answer with a crash response. *)
Lemma crash_listener name l :
  attachedBy outcome (name, l) ->
  name = "uncaughtException" \/ name = "unhandledRejection" \/ name = "exit" ->
  forall hs latest arg,
  exists pre opts,
    l hs latest arg = awaitCustom outcome pre hs name [SendCrashResponse opts] /\
    Forall (fun e => isLog e = true) pre /\
    res opts = latest.
Proof.
  intros [H | [H | [H | (server & signal & [S | S] & H)]]] N hs latest arg;
    inversion H; subst; clear H;
      try (destruct N as [N | [N | N]]; discriminate N);
      eexists _, _; (split; [reflexivity |]); split;
        try reflexivity; repeat constructor.
Qed.

Lemma filter_isSend_none l :
  Forall (fun e => isFinalize e = false) l -> filter isSend l = [].
Proof.
  induction 1 as [| e l He _ IH]; [reflexivity |].
  simpl. destruct e; try discriminate; exact IH.
Qed.

(** X5: on a process where [register] ran once, emitting
    "unhandledRejection" with a rejection reason starts one chain; when
    the awaitables of the handlers registered under "unhandledRejection"
    fulfil, it logs "Unhandled rejection" on the error console, calls the
    handlers and ends in a call of [sendCrashResponse] with the reason as
    [err], [Response.latest] as [res], [killInstance] as [callback] and no
    [silent]; the chain calls [sendCrashResponse] in no other way. *)
Theorem unhandledRejection_crash_response server p reason :
  registeredOnce outcome server p ->
  exists chain,
    emit "unhandledRejection" reason p = [chain] /\
    (allFulfil outcome "unhandledRejection" (customeErrorHandlers p) ->
     run chain =
     ConsoleError "Unhandled rejection" ::
     callsOf "unhandledRejection" (customeErrorHandlers p) ++
     settledOf "unhandledRejection" (customeErrorHandlers p) ++
     [SendCrashResponse
        {| err := reason; res := latestOnResume p;
           callback := Some killInstance; silent := None |}]) /\
    (forall opts,
        In (SendCrashResponse opts) (run chain) ->
        opts = {| err := reason; res := latestOnResume p;
                  callback := Some killInstance; silent := None |} /\
        allFulfil outcome "unhandledRejection" (customeErrorHandlers p)).
Proof.
  intros R. eexists.
  split; [apply (emit_once_unhandledRejection outcome server p reason R) |].
  unfold unhandledRejectionListener. split.
  - intros F. rewrite (awaitCustom_fulfilled outcome _ _ _ _ F). reflexivity.
  - intros opts H.
    apply awaitCustom_finalize_In in H; [| repeat constructor | reflexivity].
    destruct H as [F [E | []]]. inversion E. auto.
Qed.

(** X6: in a reachable process, a chain started by "uncaughtException",
    "unhandledRejection" or "exit" never closes the server and never calls
    [process.exit] itself; it calls [sendCrashResponse] at most once, and
    once when the awaitables of the handlers registered under the name
    fulfil. *)
Theorem crash_chains_leave_server_alone p name arg chain :
  reachable outcome p ->
  name = "uncaughtException" \/ name = "unhandledRejection" \/ name = "exit" ->
  In chain (emit name arg p) ->
  (forall e, In e (run chain) -> isShutdown e = false) /\
  length (filter isSend (run chain)) <= 1 /\
  (allFulfil outcome name (customeErrorHandlers p) ->
   length (filter isSend (run chain)) = 1).
Proof.
  intros R N I.
  apply emit_In in I. destruct I as (l & Hl & ->).
  pose proof (reachable_attached outcome p R) as A.
  unfold wellAttached in A. rewrite Forall_forall in A. specialize (A _ Hl).
  destruct (crash_listener name l A N (customeErrorHandlers p) (latestOnResume p) arg)
    as (pre & opts & -> & Hpre & _).
  split; [| split].
  - intros e H. destruct (isShutdown e) eqn:S; [| reflexivity].
    assert (isFinalize e = true) as F by (destruct e; try discriminate; reflexivity).
    destruct (awaitCustom_finalize_In outcome _ _ _ _ _ Hpre H F) as [_ [E | []]].
    subst e. discriminate S.
  - unfold run. rewrite awaitCustom_sync, awaitCustom_resumed, !filter_app.
    rewrite (filter_isSend_none pre) by (apply logs_not_finalize; exact Hpre).
    rewrite (filter_isSend_none (callsOf _ _)) by apply callsOf_not_finalize.
    rewrite (filter_isSend_none (fst _))
      by (apply settled_not_finalize, fanOut_settled).
    destruct (snd (fanOut outcome (customeErrorHandlers p) name)); simpl; lia.
  - intros F. rewrite (awaitCustom_fulfilled outcome _ _ _ _ F), !filter_app.
    rewrite (filter_isSend_none pre) by (apply logs_not_finalize; exact Hpre).
    rewrite (filter_isSend_none (callsOf _ _)) by apply callsOf_not_finalize.
    rewrite (filter_isSend_none (settledOf _ _)).
    + reflexivity.
    + unfold settledOf. apply Forall_forall. intros e H.
      apply in_map_iff in H. destruct H as (? & <- & _). reflexivity.
Qed.

(** X7: in a reachable process, a crash response is sent with
    [Response.latest] as it is when the listener has resumed from its
    [await]: the response the invoker stored while the handlers were
    awaited when it stored one, the response current when the event fired
    otherwise; what [Response.latest] was when [register] ran plays no
    part. *)
Theorem crash_response_uses_latest p name arg chain opts :
  reachable outcome p ->
  In chain (emit name arg p) ->
  In (SendCrashResponse opts) (run chain) ->
  res opts = latestOnResume p /\
  (forall stored, storedWhileAwaiting p = Some stored -> res opts = stored) /\
  (storedWhileAwaiting p = None -> res opts = Response_latest p).
Proof.
  intros R I H.
  assert (res opts = latestOnResume p) as Res.
  { apply emit_In in I. destruct I as (l & Hl & ->).
    pose proof (reachable_attached outcome p R) as A.
    unfold wellAttached in A. rewrite Forall_forall in A. specialize (A _ Hl).
    assert (name = "uncaughtException" \/ name = "unhandledRejection" \/
            name = "exit") as N.
    { destruct A as [E | [E | [E | (server & signal & S & E)]]];
        inversion E; subst; auto.
      unfold signalListener in H.
      apply awaitCustom_finalize_In in H; [| repeat constructor | reflexivity].
      destruct H as [_ H]. unfold server_close in H.
      destruct (closeCompletes server); simpl in H;
        repeat (destruct H as [H | H]; [discriminate H |]); contradiction. }
    destruct (crash_listener name l A N (customeErrorHandlers p) (latestOnResume p) arg)
      as (pre & opts' & E & Hpre & Res).
    rewrite E in H.
    apply awaitCustom_finalize_In in H; [| exact Hpre | reflexivity].
    destruct H as [_ [H | []]]. injection H as <-. exact Res. }
  split; [exact Res |]. unfold latestOnResume in Res. split.
  - intros stored S. rewrite S in Res. exact Res.
  - intros S. rewrite S in Res. exact Res.
Qed.

(** X8: on a process where [register] ran once with [server], the chain
    of SIGINT or SIGTERM runs the callback of [close] and calls
    [process.exit] exactly when the awaitables of the handlers registered
    under the signal fulfil and the server completes [close]; otherwise
    this chain leaves the process running. *)
Theorem signal_exit_condition server p signal arg :
  registeredOnce outcome server p ->
  signal = "SIGINT" \/ signal = "SIGTERM" ->
  exists chain,
    emit signal arg p = [chain] /\
    (In (ProcessExit (ExitWith None)) (run chain) <->
     allFulfil outcome signal (customeErrorHandlers p) /\
     closeCompletes server = true) /\
    (forall e, In e (run chain) -> isExit e = true ->
               allFulfil outcome signal (customeErrorHandlers p) /\
               closeCompletes server = true).
Proof.
  intros R S. eexists.
  split; [apply (emit_once_signal outcome server p signal arg R S) |].
  unfold signalListener.
  assert (Forall (fun e => isLog e = true) [ConsoleLog ("Received " ++ signal)%string])
    as Hpre by (repeat constructor).
  assert (forall e,
             In e (run (awaitCustom outcome [ConsoleLog ("Received " ++ signal)%string]
                          (customeErrorHandlers p) signal
                          (server_close server (fun _ => process_exit [])))) ->
             isExit e = true ->
             allFulfil outcome signal (customeErrorHandlers p) /\
             closeCompletes server = true) as Only.
  { intros e H X.
    assert (isFinalize e = true) as F by (destruct e; try discriminate; reflexivity).
    destruct (awaitCustom_finalize_In outcome _ _ _ _ _ Hpre H F) as [A I].
    split; [exact A |]. unfold server_close in I.
    destruct (closeCompletes server); [reflexivity |].
    destruct I as [I | []]. subst e. discriminate X. }
  split; [| exact Only]. split.
  - intros H. exact (Only _ H eq_refl).
  - intros [F C]. rewrite (awaitCustom_fulfilled outcome _ _ _ _ F).
    unfold server_close. rewrite C.
    apply in_or_app. right. apply in_or_app. right. apply in_or_app. right.
    simpl. auto.
Qed.

End Crash.

Lemma unhandledRejection_crash_response_witness :
  registeredOnce settling server0 sampleProcess /\
  allFulfil settling "unhandledRejection" (customeErrorHandlers sampleProcess) /\
  exists chain,
    emit "unhandledRejection" (JsString "late") sampleProcess = [chain] /\
    run chain =
    [ConsoleError "Unhandled rejection";
     SendCrashResponse
       {| err := JsString "late"; res := Some 7;
          callback := Some killInstance; silent := None |}].
Proof.
  assert (registeredOnce settling server0 sampleProcess) as R by reflexivity.
  assert (allFulfil settling "unhandledRejection"
                    (customeErrorHandlers sampleProcess)) as F.
  { intros h H. each_entry H; reflexivity. }
  split; [exact R |]. split; [exact F |].
  destruct (unhandledRejection_crash_response settling server0 sampleProcess
              (JsString "late") R) as (chain & E & Run & _).
  exists chain. split; [exact E |]. rewrite (Run F). reflexivity.
Defined.

Lemma crash_chains_leave_server_alone_witness :
  reachable settling sampleProcess /\
  ("exit" = "uncaughtException" \/ "exit" = "unhandledRejection" \/ "exit" = "exit") /\
  In sampleExitChain (emit "exit" (JsNumber 0) sampleProcess) /\
  allFulfil settling "exit" (customeErrorHandlers sampleProcess) /\
  (forall e, In e (run sampleExitChain) -> isShutdown e = false) /\
  length (filter isSend (run sampleExitChain)) = 1.
Proof.
  assert (reachable settling sampleProcess) as R by apply sample_reachable.
  assert (In sampleExitChain (emit "exit" (JsNumber 0) sampleProcess)) as I
      by (left; reflexivity).
  assert (allFulfil settling "exit" (customeErrorHandlers sampleProcess)) as F.
  { intros h H. each_entry H; reflexivity. }
  destruct (crash_chains_leave_server_alone settling sampleProcess "exit"
              (JsNumber 0) sampleExitChain R (or_intror (or_intror eq_refl)) I)
    as (Alone & _ & One).
  split; [exact R |]. split; [auto |]. split; [exact I |]. split; [exact F |].
  split; [exact Alone | exact (One F)].
Defined.

Lemma crash_response_uses_latest_witness :
  reachable settling sampleStored /\
  In sampleStoredChain (emit "exit" (JsNumber 0) sampleStored) /\
  In (SendCrashResponse
        {| err := JsError "Process exited with code 0"; res := Some 9;
           callback := None; silent := Some true |})
     (run sampleStoredChain) /\
  Response_latest sampleStored = Some 7 /\
  storedWhileAwaiting sampleStored = Some (Some 9) /\
  res {| err := JsError "Process exited with code 0"; res := Some 9;
         callback := None; silent := Some true |} = latestOnResume sampleStored.
Proof.
  assert (reachable settling sampleStored) as R
      by apply reach_store, sample_reachable.
  assert (In sampleStoredChain (emit "exit" (JsNumber 0) sampleStored)) as I
      by (left; reflexivity).
  assert (In (SendCrashResponse
                {| err := JsError "Process exited with code 0"; res := Some 9;
                   callback := None; silent := Some true |})
             (run sampleStoredChain)) as H
      by (simpl; auto).
  destruct (crash_response_uses_latest settling sampleStored "exit" (JsNumber 0)
              _ _ R I H) as [Res _].
  split; [exact R |]. split; [exact I |]. split; [exact H |].
  split; [reflexivity |]. split; [reflexivity | exact Res].
Defined.

Lemma signal_exit_condition_witness :
  registeredOnce settling server0 sampleProcess /\
  ("SIGTERM" = "SIGINT" \/ "SIGTERM" = "SIGTERM") /\
  allFulfil settling "SIGTERM" (customeErrorHandlers sampleProcess) /\
  closeCompletes server0 = true /\
  exists chain,
    emit "SIGTERM" JsUndefined sampleProcess = [chain] /\
    In (ProcessExit (ExitWith None)) (run chain).
Proof.
  assert (registeredOnce settling server0 sampleProcess) as R by reflexivity.
  assert (allFulfil settling "SIGTERM" (customeErrorHandlers sampleProcess)) as F.
  { intros h H. each_entry H. }
  destruct (signal_exit_condition settling server0 sampleProcess "SIGTERM"
              JsUndefined R (or_intror eq_refl)) as (chain & E & Iff & _).
  split; [exact R |]. split; [auto |]. split; [exact F |]. split; [reflexivity |].
  exists chain. split; [exact E |]. apply Iff. split; [exact F | reflexivity].
Defined.

(** ** Handlers under other names *)

Section Isolation.

Variable outcome : Handler -> string -> Outcome.

Lemma callCustomErrorHandler_other hs signal s h :
  s <> signal ->
  callCustomErrorHandler (hs ++ [(s, h)]) signal =
  (fst (callCustomErrorHandler hs signal),
   snd (callCustomErrorHandler hs signal) ++ [Resolved]).
Proof.
  intros N. unfold callCustomErrorHandler. simpl.
  rewrite !map_app, concat_app. simpl.
  destruct (String.eqb signal s) eqn:E.
  - apply String.eqb_eq in E. congruence.
  - simpl. rewrite app_nil_r. reflexivity.
Qed.

Lemma Promise_all_resolved ps :
  Promise_all outcome (ps ++ [Resolved]) = Promise_all outcome ps.
Proof.
  induction ps as [| [| f s] ps IH]; simpl; [reflexivity | exact IH |].
  rewrite IH. reflexivity.
Qed.

Lemma awaitCustom_other pre hs signal fin s h :
  s <> signal ->
  awaitCustom outcome pre (hs ++ [(s, h)]) signal fin =
  awaitCustom outcome pre hs signal fin.
Proof.
  intros N. unfold awaitCustom.
  rewrite (callCustomErrorHandler_other _ _ _ _ N).
  destruct (callCustomErrorHandler hs signal) as [calls ps]. simpl.
  rewrite Promise_all_resolved. reflexivity.
Qed.

Lemma attached_other name l hs latest arg s h :
  attachedBy outcome (name, l) ->
  s <> name ->
  l (hs ++ [(s, h)]) latest arg = l hs latest arg.
Proof.
  intros [H | [H | [H | (server & signal & S & H)]]] N;
    inversion H; subst; clear H; apply awaitCustom_other; exact N.
Qed.

(** X9: in a reachable process, registering a handler under one name
    leaves the chains of every event with another name as they were, calls,
    settlements and finalize action alike: a handler that rejects or never
    settles holds up only the chains of its own name. *)
Theorem other_names_unaffected p C D h arg :
  reachable outcome p ->
  C <> D ->
  emit D arg (on C h p) = emit D arg p.
Proof.
  intros R N. unfold emit. simpl.
  apply map_ext_in. intros [name l] H.
  apply filter_In in H. destruct H as [H E]. simpl in *.
  apply String.eqb_eq in E. subst name.
  pose proof (reachable_attached outcome p R) as A.
  unfold wellAttached in A. rewrite Forall_forall in A.
  eapply attached_other; [apply A; exact H | exact N].
Qed.

(** The decimal form tells the number. *)
Lemma decimal_injective (a b : Z) :
  NilZero.string_of_int (Z.to_int a) = NilZero.string_of_int (Z.to_int b) -> a = b.
Proof.
  intros E.
  assert (forall z, Z.to_int z <> Decimal.Pos Decimal.Nil /\
                    Z.to_int z <> Decimal.Neg Decimal.Nil) as Nonnil.
  { intros z. split; intros H;
      pose proof (DecimalZ.of_to z) as T; rewrite H in T; simpl in T;
        subst z; discriminate H. }
  assert (Some (Z.to_int a) = Some (Z.to_int b)) as S.
  { rewrite <- (NilZero.isi (Z.to_int a)), <- (NilZero.isi (Z.to_int b)), E;
      try apply Nonnil. reflexivity. }
  injection S as S.
  rewrite <- (DecimalZ.of_to a), <- (DecimalZ.of_to b), S. reflexivity.
Qed.

(** X10: in a reachable process, the crash responses sent for two exit
    events carry the same error message only when the exit codes are the
    same: the message tells the code. *)
Theorem exit_message_tells_code p code1 code2 chain1 chain2 opts1 opts2 :
  reachable outcome p ->
  In chain1 (emit "exit" (JsNumber code1) p) ->
  In chain2 (emit "exit" (JsNumber code2) p) ->
  In (SendCrashResponse opts1) (run chain1) ->
  In (SendCrashResponse opts2) (run chain2) ->
  err opts1 = err opts2 ->
  code1 = code2.
Proof.
  intros R I1 I2 H1 H2 E.
  pose proof (reachable_attached outcome p R) as A.
  unfold wellAttached in A. rewrite Forall_forall in A.
  assert (forall code chain opts,
             In chain (emit "exit" (JsNumber code) p) ->
             In (SendCrashResponse opts) (run chain) ->
             err opts =
             JsError ("Process exited with code " ++
                      NilZero.string_of_int (Z.to_int code))%string) as Msg.
  { intros code chain opts I H.
    apply emit_In in I. destruct I as (l & Hl & ->).
    destruct (A _ Hl) as [X | [X | [X | (server & signal & [S | S] & X)]]];
      inversion X; subst; clear X; try discriminate.
    unfold exitListener in H.
    apply awaitCustom_finalize_In in H; [| constructor | reflexivity].
    destruct H as [_ [H | []]]. injection H as <-. reflexivity. }
  rewrite (Msg _ _ _ I1 H1), (Msg _ _ _ I2 H2) in E.
  apply decimal_injective. simpl in E. congruence.
Qed.

End Isolation.

Lemma other_names_unaffected_witness :
  reachable settling sampleProcess /\
  "SIGINT" <> "uncaughtException" /\
  settling 0 "SIGINT" = Rejects /\
  emit "uncaughtException" (JsError "boom") (on "SIGINT" 0 sampleProcess) =
  emit "uncaughtException" (JsError "boom") sampleProcess.
Proof.
  assert (reachable settling sampleProcess) as R by apply sample_reachable.
  assert ("SIGINT" <> "uncaughtException") as N by discriminate.
  split; [exact R |]. split; [exact N |]. split; [reflexivity |].
  exact (other_names_unaffected settling sampleProcess "SIGINT" "uncaughtException"
           0 (JsError "boom") R N).
Defined.

Lemma exit_message_tells_code_witness :
  reachable settling sampleProcess /\
  In sampleExitChain (emit "exit" (JsNumber 0) sampleProcess) /\
  In (SendCrashResponse
        {| err := JsError "Process exited with code 0"; res := Some 7;
           callback := None; silent := Some true |})
     (run sampleExitChain) /\
  0%Z = 0%Z.
Proof.
  assert (reachable settling sampleProcess) as R by apply sample_reachable.
  assert (In sampleExitChain (emit "exit" (JsNumber 0) sampleProcess)) as I
      by (left; reflexivity).
  assert (In (SendCrashResponse
                {| err := JsError "Process exited with code 0"; res := Some 7;
                   callback := None; silent := Some true |})
             (run sampleExitChain)) as H
      by (simpl; auto).
  split; [exact R |]. split; [exact I |]. split; [exact H |].
  exact (exit_message_tells_code settling sampleProcess 0 0 sampleExitChain
           sampleExitChain _ _ R I I H H eq_refl).
Defined.
